(** * TSMServerShell-Node: the route registry, the dispatcher and the asset
      projection of [ServerShell], embedded from the TypeScript source and from
      the build [dist/index.js].  The two agree on the registry and on the
      listener; the build has [options] and [useDynamic] in addition, and its
      [useStatic] also writes [Content-Length].

    JavaScript strings are represented by their UTF-8 bytes, so that
    [Buffer.byteLength s] is [String.length s]; every character the code
    inspects (['.'], ['/'], ['\']) is ASCII, so splitting on it and replacing
    it act on bytes exactly as on UTF-16 code units. *)

From Stdlib Require Import String Ascii List Bool Arith Lia.
Import ListNotations.
Local Open Scope string_scope.
Local Open Scope list_scope.

(** String concatenation (JavaScript [+] and template literals); [++] is kept
    for lists. *)
Infix "+++" := String.append (right associativity, at level 60).

(** ** JavaScript string and array primitives used by the code. *)
Module Js.

(** [s.split(sep)] for a one-character separator. *)
Fixpoint split (sep : ascii) (s : string) : list string :=
  match s with
  | EmptyString => [EmptyString]
  | String c rest =>
      if Ascii.eqb c sep then EmptyString :: split sep rest
      else match split sep rest with
           | [] => [String c EmptyString]
           | w :: ws => String c w :: ws
           end
  end.

(** [arr.join(sep)]. *)
Fixpoint join (sep : string) (arr : list string) : string :=
  match arr with
  | [] => EmptyString
  | [x] => x
  | x :: rest => x +++ sep +++ join sep rest
  end.

(** [s.replaceAll(a, b)] for one-character [a] and [b]. *)
Fixpoint replaceAll (a b : ascii) (s : string) : string :=
  match s with
  | EmptyString => EmptyString
  | String c rest => String (if Ascii.eqb c a then b else c) (replaceAll a b rest)
  end.

(** Occurrence of a character in a string. *)
Fixpoint includes (c : ascii) (s : string) : bool :=
  match s with
  | EmptyString => false
  | String d rest => Ascii.eqb d c || includes c rest
  end.

(** Last character of a string, if any. *)
Fixpoint lastChar (s : string) : option ascii :=
  match s with
  | EmptyString => None
  | String c EmptyString => Some c
  | String _ rest => lastChar rest
  end.

End Js.

(** ** [node:path], POSIX flavour: [join] concatenates its non-empty arguments
    with ['/'] and normalizes the result. *)
Module NodePath.

Definition sep : ascii := "/"%char.

(** One step of [normalizeString]: [res] holds the segments kept so far,
    most recent first. *)
Definition pushSegment (allowAboveRoot : bool) (res : list string) (seg : string)
  : list string :=
  if (seg =? "") || (seg =? ".") then res
  else if seg =? ".." then
    match res with
    | [] => if allowAboveRoot then [".."] else []
    | top :: below =>
        if top =? ".." then (if allowAboveRoot then ".." :: res else res)
        else below
    end
  else seg :: res.

Definition normalizeString (path : string) (allowAboveRoot : bool) : string :=
  Js.join "/" (rev (fold_left (pushSegment allowAboveRoot) (Js.split sep path) [])).

Definition isAbsolute (path : string) : bool :=
  match path with
  | String c _ => Ascii.eqb c sep
  | EmptyString => false
  end.

Definition trailingSeparator (path : string) : bool :=
  match Js.lastChar path with
  | Some c => Ascii.eqb c sep
  | None => false
  end.

Definition normalize (path : string) : string :=
  if path =? "" then "."
  else
    let body := normalizeString path (negb (isAbsolute path)) in
    if body =? "" then
      if isAbsolute path then "/"
      else if trailingSeparator path then "./" else "."
    else
      let body := if trailingSeparator path then body +++ "/" else body in
      if isAbsolute path then "/" +++ body else body.

(** [join(a, b)], the only arity the code uses. *)
Definition join (a b : string) : string :=
  match (a =? ""), (b =? "") with
  | true, true => "."
  | true, false => normalize b
  | false, true => normalize a
  | false, false => normalize (a +++ "/" +++ b)
  end.

End NodePath.

(** ** [MIMEFromExt]: the [switch] on the extension.  The result is paired with
    the lines the call writes through [console.log]. *)
Definition unknownExtensionLine (extension : string) : string :=
  "Encountered unknown extension while generating static routes: ." +++ extension
  +++ " - If you want this fixed as quickly as possible, open an issue at https://github.com/SaphirDeFeu/TSMServerShell-Node/issues".

Definition MIMEFromExt (extension : string) : string * list string :=
  if (extension =? "html") || (extension =? "htm") then ("text/html", [])
  else if extension =? "css" then ("text/css", [])
  else if (extension =? "js") || (extension =? "mjs") then ("text/javascript", [])
  else if extension =? "txt" then ("text/plain", [])
  else if extension =? "svg" then ("image/svg+xml", [])
  else if extension =? "apng" then ("image/apng", [])
  else if extension =? "png" then ("image/png", [])
  else if extension =? "gif" then ("image/gif", [])
  else if (extension =? "jpg") || (extension =? "jpeg") then ("image/jpeg", [])
  else if extension =? "ico" then ("image/vnd.microsoft.icon", [])
  else if extension =? "mp4" then ("video/mp4", [])
  else if extension =? "mpeg" then ("video/mpeg", [])
  else if extension =? "ogv" then ("video/ogg", [])
  else if extension =? "mp3" then ("audio/mpeg", [])
  else if extension =? "oga" then ("audio/ogg", [])
  else if extension =? "json" then ("application/json", [])
  else if extension =? "xml" then ("application/xml", [])
  else if extension =? "zip" then ("application/zip", [])
  else if extension =? "7z" then ("application/x-7z-compressed", [])
  else if extension =? "rar" then ("application/vnd.rar", [])
  else if extension =? "tar" then ("application/x-tar", [])
  else if extension =? "gz" then ("application/gzip", [])
  else if extension =? "php" then ("application/x-httpd-php", [])
  else if extension =? "pdf" then ("application/pdf", [])
  else if extension =? "sh" then ("application/x-sh", [])
  else if extension =? "otf" then ("font/otf", [])
  else if extension =? "ttf" then ("font/ttf", [])
  else ("text/plain", [unknownExtensionLine extension]).

(** The table of section 4.4 of the specification, entry by entry. *)
Definition mimeTable : list (string * string) :=
  [ ("html", "text/html"); ("htm", "text/html"); ("css", "text/css");
    ("js", "text/javascript"); ("mjs", "text/javascript"); ("txt", "text/plain");
    ("svg", "image/svg+xml"); ("apng", "image/apng"); ("png", "image/png");
    ("gif", "image/gif"); ("jpg", "image/jpeg"); ("jpeg", "image/jpeg");
    ("ico", "image/vnd.microsoft.icon"); ("mp4", "video/mp4");
    ("mpeg", "video/mpeg"); ("ogv", "video/ogg"); ("mp3", "audio/mpeg");
    ("oga", "audio/ogg"); ("json", "application/json"); ("xml", "application/xml");
    ("zip", "application/zip"); ("7z", "application/x-7z-compressed");
    ("rar", "application/vnd.rar"); ("tar", "application/x-tar");
    ("gz", "application/gzip"); ("php", "application/x-httpd-php");
    ("pdf", "application/pdf"); ("sh", "application/x-sh"); ("otf", "font/otf");
    ("ttf", "font/ttf") ].

Fixpoint tableLookup (table : list (string * string)) (key : string) : option string :=
  match table with
  | [] => None
  | (k, v) :: rest => if key =? k then Some v else tableLookup rest key
  end.

(** ** Routes, callbacks and the server shell. *)

(** The functions a route can hold: a listener supplied by the application
    (opaque, named by an identifier), or one of the closures the asset
    projection builds, with the variables it captures. *)
Inductive Callback : Type :=
| Listener (id : nat)
| StaticTs (extension contents : string)     (* closure of [useStatic], TypeScript source *)
| Static (extension contents : string)       (* closure of [useStatic], dist/index.js *)
| Dynamic (extension pathnameDir : string).  (* closure of [useDynamic], dist/index.js *)

Record Route : Type := mkRoute {
  path : string;
  method : string;
  callback : Callback
}.

Definition equals (this : Route) (path' method' : string) : bool :=
  if (path this =? path') && (method this =? method') then true else false.

(** The middleware slot: the initial [() => {}] or a function given to [use]. *)
Inductive Middleware : Type :=
| NoOp
| UserMiddleware (id : nat).

Record ServerShell : Type := mkShell {
  routes : list Route;
  middleware : Middleware
}.

(** [new ServerShell(config)]; the transport configuration plays no part in
    routing and is left out. *)
Definition newShell : ServerShell := mkShell [] NoOp.

Inductive Error : Type :=
| RouteAlreadyBoundError (route : string)
| FilesystemError (pathname : string).

Inductive Completion : Type :=
| Normal
| Throw (e : Error).

(** [this.routes.push(route)]. *)
Definition push (this : ServerShell) (route : Route) : ServerShell :=
  mkShell (routes this ++ [route]) (middleware this).

(** The shape shared by the registration methods: the [forEach] throws at the
    first route satisfying [bound], before anything is pushed. *)
Definition bind (bound : Route -> bool) (path' method' : string) (listener : Callback)
  (this : ServerShell) : Completion * ServerShell :=
  if existsb bound (routes this)
  then (Throw (RouteAlreadyBoundError path'), this)
  else (Normal, push this (mkRoute path' method' listener)).

Definition get (path' : string) (listener : Callback) :=
  bind (fun route => (path route =? path') && ((method route =? "GET") || (method route =? "ANY")))
       path' "GET" listener.

Definition post (path' : string) (listener : Callback) :=
  bind (fun route => (path route =? path') && ((method route =? "POST") || (method route =? "ANY")))
       path' "POST" listener.

Definition options (path' : string) (listener : Callback) :=
  bind (fun route => (path route =? path') && ((method route =? "OPTIONS") || (method route =? "ANY")))
       path' "OPTIONS" listener.

Definition put (path' : string) (listener : Callback) :=
  bind (fun route => (path route =? path') && ((method route =? "PUT") || (method route =? "ANY")))
       path' "PUT" listener.

Definition delete (path' : string) (listener : Callback) :=
  bind (fun route => (path route =? path') && ((method route =? "DELETE") || (method route =? "ANY")))
       path' "DELETE" listener.

Definition any (path' : string) (listener : Callback) :=
  bind (fun route => path route =? path') path' "ANY" listener.

Definition use (middleware' : Middleware) (this : ServerShell) : ServerShell :=
  mkShell (routes this) middleware'.

(** ** Requests, responses and the request listener of [listen]. *)

Module Req.
Record t : Type := make { url : string; method : string }.
End Req.

Inductive HeaderValue : Type :=
| Text (s : string)
| Number (n : nat).

(** What a request makes happen, in order. *)
Inductive Event : Type :=
| MiddlewareCalled (f : Middleware) (req : Req.t)
| CallbackCalled (route : Route) (req : Req.t)
| WriteHead (status : nat) (headers : list (string * HeaderValue))
| End_ (body : string)
| ConsoleLog (line : string).

(** The disk as a request finds it: the bytes [readFileSync] returns for a
    path name, or [None] where it throws. *)
Definition Disk : Type := string -> option string.

(** A directory as [readdirSync], [lstatSync] and [readFileSync] show it when
    the projection runs (one that can be listed and read throughout): entries
    in listing order, each a regular file with its bytes, a directory, or
    something that is neither (a symbolic link, a socket). *)
#[warnings="-register-all"]
Inductive Node : Type :=
| File (bytes : string)
| Directory (contents : list (string * Node))
| Special.

Section Host.

(** [new TextDecoder('utf-8').decode(bytes)], from file bytes to text. *)
Variable decode : string -> string.

(** The body of a route's callback.  The body of an application listener is
    not part of the shell: it is taken to return, and contributes no event. *)
Definition runCallback (disk : Disk) (c : Callback) : list Event * Completion :=
  match c with
  | Listener _ => ([], Normal)
  | StaticTs extension contents =>
      let (mime, lines) := MIMEFromExt extension in
      (map ConsoleLog lines
         ++ [WriteHead 200 [("Content-Type", Text mime)]; End_ contents], Normal)
  | Static extension contents =>
      let (mime, lines) := MIMEFromExt extension in
      (map ConsoleLog lines
         ++ [WriteHead 200 [("Content-Type", Text mime);
                            ("Content-Length", Number (String.length contents))];
             End_ contents], Normal)
  | Dynamic extension pathnameDir =>
      match disk pathnameDir with
      | None => ([], Throw (FilesystemError pathnameDir))
      | Some bytes =>
          let assetContents := decode bytes in
          let (mime, lines) := MIMEFromExt extension in
          (map ConsoleLog lines
             ++ [WriteHead 200 [("Content-Type", Text mime);
                                ("Content-Length", Number (String.length assetContents))];
                 End_ assetContents], Normal)
      end
  end.

(** [route.callback(req, res)] and the rest of the loop after it; an
    exception leaves the loop and the listener. *)
Definition invoke (disk : Disk) (req : Req.t) (route : Route)
  (continue : list Event * (Completion * bool)) : list Event * (Completion * bool) :=
  let (events, completion) := runCallback disk (callback route) in
  match completion with
  | Normal => (CallbackCalled route req :: events ++ fst continue, snd continue)
  | Throw e => (CallbackCalled route req :: events, (Throw e, true))
  end.

(** [for (const route of this.routes) { ... }], with the flag [found]. *)
Fixpoint forRoutes (disk : Disk) (req : Req.t) (rs : list Route) (found : bool)
  : list Event * (Completion * bool) :=
  match rs with
  | [] => ([], (Normal, found))
  | route :: rest =>
      if equals route (Req.url req) (Req.method req) then
        invoke disk req route (forRoutes disk req rest true)
      else if (path route =? Req.url req) && (method route =? "ANY") then
        invoke disk req route (forRoutes disk req rest true)
      else forRoutes disk req rest found
  end.

(** What [if (!found) { ... }] writes. *)
Definition notFound (req : Req.t) : list Event :=
  [WriteHead 404 [("Content-Type", Text "text/html")];
   End_ ("Cannot get " +++ Req.url req)].

(** The function given to [http.createServer] by [listen]: the middleware
    (an application function, taken to return), the loop, the fallback. *)
Definition requestListener (this : ServerShell) (disk : Disk) (req : Req.t)
  : list Event * Completion :=
  let '(events, (completion, found)) := forRoutes disk req (routes this) false in
  let fallback :=
    match completion with
    | Normal => if negb found then notFound req else []
    | Throw _ => []
    end in
  (MiddlewareCalled (middleware this) req :: events ++ fallback, completion).

(** ** The asset projection. *)

(** The three projections differ only in the closure they register;
    [closure extension pathnameDir bytes] builds it. *)
Variable closure : string -> string -> string -> Callback.

(** The body of the [else if (dirEntry.isFile())] branch. *)
Definition projectFile (entry pathnameDir pathnameRoute bytes : string)
  (this : ServerShell) : Completion * ServerShell :=
  let splitFileName := Js.split "."%char entry in
  let extension := last splitFileName "" in
  let splitFileName := removelast splitFileName in
  let name := Js.join "." splitFileName in
  let pathnameRoute :=
    if (name =? "index") && (extension =? "html")
    then NodePath.join pathnameRoute ".."
    else pathnameRoute in
  get (Js.replaceAll "\"%char "/"%char pathnameRoute)
      (closure extension pathnameDir bytes) this.

(** One turn of [for (const entry of contents)]; a directory entry runs the
    whole function on the child. *)
Fixpoint projectEntry (entry : string) (dirEntry : Node)
  (directory route : string) (this : ServerShell) {struct dirEntry}
  : Completion * ServerShell :=
  let pathnameDir := NodePath.join directory entry in
  let pathnameRoute := NodePath.join route entry in
  match dirEntry with
  | Directory contents =>
      (fix each (contents : list (string * Node)) (this : ServerShell)
         : Completion * ServerShell :=
         match contents with
         | [] => (Normal, this)
         | (entry', child) :: rest =>
             match projectEntry entry' child pathnameDir pathnameRoute this with
             | (Normal, this') => each rest this'
             | (Throw e, this') => (Throw e, this')
             end
         end) contents this
  | File bytes => projectFile entry pathnameDir pathnameRoute bytes this
  | Special => (Normal, this)
  end.

(** [useStatic(directory, route)] and [useDynamic(directory, route)], on the
    listing [contents] of [directory]. *)
Fixpoint project (contents : list (string * Node)) (directory route : string)
  (this : ServerShell) : Completion * ServerShell :=
  match contents with
  | [] => (Normal, this)
  | (entry, dirEntry) :: rest =>
      match projectEntry entry dirEntry directory route this with
      | (Normal, this') => project rest directory route this'
      | (Throw e, this') => (Throw e, this')
      end
  end.

End Host.

(** The eager projection as the TypeScript source has it. *)
Module Ts.
Definition useStatic (decode : string -> string) :=
  project (fun extension _ bytes => StaticTs extension (decode bytes)).
End Ts.

(** The two projections as [dist/index.js] has them. *)
Module Dist.
Definition useStatic (decode : string -> string) :=
  project (fun extension _ bytes => Static extension (decode bytes)).

Definition useDynamic :=
  project (fun extension pathnameDir _ => Dynamic extension pathnameDir).
End Dist.

(** ** Setup: the calls an application can make on a shell. *)
Inductive Call : Type :=
| CallGet (path' : string) (listener : Callback)
| CallPost (path' : string) (listener : Callback)
| CallOptions (path' : string) (listener : Callback)
| CallPut (path' : string) (listener : Callback)
| CallDelete (path' : string) (listener : Callback)
| CallAny (path' : string) (listener : Callback)
| CallUse (f : Middleware)
| CallUseStaticTs (contents : list (string * Node)) (directory route : string)
| CallUseStatic (contents : list (string * Node)) (directory route : string)
| CallUseDynamic (contents : list (string * Node)) (directory route : string).

Definition perform (decode : string -> string) (c : Call) (this : ServerShell)
  : Completion * ServerShell :=
  match c with
  | CallGet p l => get p l this
  | CallPost p l => post p l this
  | CallOptions p l => options p l this
  | CallPut p l => put p l this
  | CallDelete p l => delete p l this
  | CallAny p l => any p l this
  | CallUse f => (Normal, use f this)
  | CallUseStaticTs contents directory route => Ts.useStatic decode contents directory route this
  | CallUseStatic contents directory route => Dist.useStatic decode contents directory route this
  | CallUseDynamic contents directory route => Dist.useDynamic contents directory route this
  end.

(** The shells an application can build: a call that throws may be caught, and
    leaves the shell as the call left it. *)
Inductive reachable (decode : string -> string) : ServerShell -> Prop :=
| reachable_new : reachable decode newShell
| reachable_call : forall c this,
    reachable decode this -> reachable decode (snd (perform decode c this)).

(** The conflict rule of the specification: same path, and same method or
    [ANY] on either side. *)
Definition conflict (p1 m1 p2 m2 : string) : bool :=
  (p1 =? p2) && ((m1 =? m2) || (m1 =? "ANY") || (m2 =? "ANY")).

Definition conflicts (a b : Route) : bool :=
  conflict (path a) (method a) (path b) (method b).

(** No two routes of the table conflict. *)
Fixpoint conflictFree (rs : list Route) : Prop :=
  match rs with
  | [] => True
  | r :: rest => (forall r', In r' rest -> conflicts r r' = false) /\ conflictFree rest
  end.

(** The routes a request matches in the loop of the listener. *)
Definition matches (req : Req.t) (route : Route) : bool :=
  equals route (Req.url req) (Req.method req)
  || ((path route =? Req.url req) && (method route =? "ANY")).

(** The callbacks a run of the listener called, in order. *)
Fixpoint called (events : list Event) : list Route :=
  match events with
  | [] => []
  | CallbackCalled route _ :: rest => route :: called rest
  | _ :: rest => called rest
  end.

(** The number of times the listener called a middleware. *)
Fixpoint middlewareCalls (events : list Event) : nat :=
  match events with
  | [] => 0
  | MiddlewareCalled _ _ :: rest => S (middlewareCalls rest)
  | _ :: rest => middlewareCalls rest
  end.

(** The registration methods, by name, for statements about all of them. *)
Inductive Registration : Type :=
| ByGet | ByPost | ByOptions | ByPut | ByDelete | ByAny.

Definition register (op : Registration) : string -> Callback -> ServerShell -> Completion * ServerShell :=
  match op with
  | ByGet => get
  | ByPost => post
  | ByOptions => options
  | ByPut => put
  | ByDelete => delete
  | ByAny => any
  end.

Definition methodOf (op : Registration) : string :=
  match op with
  | ByGet => "GET"
  | ByPost => "POST"
  | ByOptions => "OPTIONS"
  | ByPut => "PUT"
  | ByDelete => "DELETE"
  | ByAny => "ANY"
  end.

(** Some route of the table conflicts with a binding of [method'] at [path']. *)
Definition Conflicting (path' method' : string) (rs : list Route) : Prop :=
  exists r, In r rs /\ path r = path'
            /\ (method r = method' \/ method r = "ANY" \/ method' = "ANY").

(** A request matches a route as the lookup of the specification has it. *)
Definition Matches (req : Req.t) (r : Route) : Prop :=
  path r = Req.url req /\ (method r = Req.method req \/ method r = "ANY").

(** ** The walk of the projection, file by file. *)

(** The loop variables at a regular file: what the file branch works from. *)
Record Visit : Type := mkVisit {
  entry : string;
  pathnameDir : string;
  pathnameRoute : string;
  bytes : string
}.

(** The regular files the walk meets, in the order it meets them. *)
Fixpoint visitsEntry (entry' : string) (dirEntry : Node) (directory route : string)
  {struct dirEntry} : list Visit :=
  match dirEntry with
  | Directory contents =>
      (fix each (contents : list (string * Node)) : list Visit :=
         match contents with
         | [] => []
         | (entry'', child) :: rest =>
             visitsEntry entry'' child (NodePath.join directory entry')
                         (NodePath.join route entry') ++ each rest
         end) contents
  | File bytes' =>
      [mkVisit entry' (NodePath.join directory entry') (NodePath.join route entry') bytes']
  | Special => []
  end.

Fixpoint visits (contents : list (string * Node)) (directory route : string) : list Visit :=
  match contents with
  | [] => []
  | (entry', dirEntry) :: rest =>
      visitsEntry entry' dirEntry directory route ++ visits rest directory route
  end.

(** The file branch run on each visit in turn, until one throws. *)
Fixpoint projectAll (closure : string -> string -> string -> Callback)
  (vs : list Visit) (this : ServerShell) : Completion * ServerShell :=
  match vs with
  | [] => (Normal, this)
  | v :: rest =>
      match projectFile closure (entry v) (pathnameDir v) (pathnameRoute v) (bytes v) this with
      | (Normal, this') => projectAll closure rest this'
      | (Throw e, this') => (Throw e, this')
      end
  end.

(** What the file branch computes from the name of the entry. *)
Definition extensionOf (entry' : string) : string :=
  last (Js.split "."%char entry') "".

Definition nameOf (entry' : string) : string :=
  Js.join "." (removelast (Js.split "."%char entry')).

(** The path the file branch hands to [get]. *)
Definition routeOf (v : Visit) : string :=
  Js.replaceAll "\"%char "/"%char
    (if (nameOf (entry v) =? "index") && (extensionOf (entry v) =? "html")
     then NodePath.join (pathnameRoute v) ".."
     else pathnameRoute v).

(** The route the file branch pushes when [get] accepts it. *)
Definition routeFor (closure : string -> string -> string -> Callback) (v : Visit) : Route :=
  mkRoute (routeOf v) "GET" (closure (extensionOf (entry v)) (pathnameDir v) (bytes v)).

(** ** The route layout in the words of the specification. *)

(** A path segment: not empty, not ["."] or [".."], and without ['/']. *)
Definition segment (s : string) : bool :=
  negb (s =? "") && negb (s =? ".") && negb (s =? "..") && negb (Js.includes "/"%char s).

(** The absolute path with the given segments: ["/"] for none. *)
Definition absolute (segments : list string) : string :=
  "/" +++ Js.join "/" segments.

(** The regular files of a tree: the segments of each one's path relative to
    the root of the walk, with its bytes, in listing order. *)
Fixpoint regularFilesEntry (entry' : string) (dirEntry : Node)
  : list (list string * string) :=
  match dirEntry with
  | Directory contents =>
      map (fun f => (entry' :: fst f, snd f))
          ((fix each (contents : list (string * Node)) : list (list string * string) :=
              match contents with
              | [] => []
              | (entry'', child) :: rest => regularFilesEntry entry'' child ++ each rest
              end) contents)
  | File bytes' => [([entry'], bytes')]
  | Special => []
  end.

Fixpoint regularFiles (contents : list (string * Node)) : list (list string * string) :=
  match contents with
  | [] => []
  | (entry', dirEntry) :: rest => regularFilesEntry entry' dirEntry ++ regularFiles rest
  end.

(** The place in the table a file's route path is derived from: its own
    relative path, or its directory's for [index.html]. *)
Definition target (relative : list string) : list string :=
  if last relative "" =? "index.html" then removelast relative else relative.

(** The route path of a file: the prefix followed by the file's relative
    path, or by the relative path of its directory for a file named
    [index.html]; then every backslash becomes a slash. *)
Definition specRoute (prefix relative : list string) : string :=
  Js.replaceAll "\"%char "/"%char (absolute (prefix ++ target relative)).

(** A test on every entry name of a tree, given the names listed after it in
    the same directory. *)
Fixpoint everyEntry (p : string -> list string -> bool) (dirEntry : Node) : bool :=
  match dirEntry with
  | Directory contents =>
      (fix each (contents : list (string * Node)) : bool :=
         match contents with
         | [] => true
         | (entry', child) :: rest =>
             p entry' (map fst rest) && everyEntry p child && each rest
         end) contents
  | _ => true
  end.

Fixpoint everyName (p : string -> list string -> bool) (contents : list (string * Node))
  : bool :=
  match contents with
  | [] => true
  | (entry', dirEntry) :: rest =>
      p entry' (map fst rest) && everyEntry p dirEntry && everyName p rest
  end.

(** Every name in the tree is a path segment, as a file system has it. *)
Definition segmentNames : list (string * Node) -> bool :=
  everyName (fun entry' _ => segment entry').

(** A segment without a backslash. *)
Definition portable (s : string) : bool :=
  segment s && negb (Js.includes "\"%char s).

(** Every name in the tree is a segment without a backslash, and no directory
    lists a name twice. *)
Definition wellFormed : list (string * Node) -> bool :=
  everyName (fun entry' later => portable entry' && negb (existsb (String.eqb entry') later)).

(** ** A worked setup: the tree of section 8 of the specification. *)

(** On bytes that are all ASCII the decoder returns them as they are. *)
Definition decodeAscii (bytes' : string) : string := bytes'.

(** [/root] holding [a.txt], [sub/b.png] and [sub/index.html]. *)
Definition exampleRoot : list (string * Node) :=
  [ ("a.txt", File "hello");
    ("sub", Directory [ ("b.png", File "PNG"); ("index.html", File "<html></html>") ]) ].

(** [app.get("/get", ...)], [app.any("/all", ...)], then the eager projection
    of [/root] under [/assets]. *)
Definition exampleShell : ServerShell :=
  snd (perform decodeAscii (CallUseStatic exampleRoot "/root" "/assets")
    (snd (perform decodeAscii (CallAny "/all" (Listener 1))
      (snd (perform decodeAscii (CallGet "/get" (Listener 0)) newShell))))).

(** The visit of [/root/sub/index.html] in that projection. *)
Definition exampleVisit : Visit :=
  mkVisit "index.html" "/root/sub/index.html" "/assets/sub/index.html" "<html></html>".

(** The disk after [/root/sub/index.html] has been edited. *)
Definition editedDisk : Disk :=
  fun pathname => if pathname =? "/root/sub/index.html" then Some "<p>edited</p>" else None.

(** ** Further vocabulary for statements about setup and responses. *)

(** A setup: calls made one after the other, a throwing call being caught. *)
Definition performAll (decode : string -> string) (calls : list Call)
  (this : ServerShell) : ServerShell :=
  fold_left (fun shell c => snd (perform decode c shell)) calls this.

(** The method names the registration methods push. *)
Definition registrationMethods : list string :=
  ["GET"; "POST"; "OPTIONS"; "PUT"; "DELETE"; "ANY"].


(** An ASCII capital letter, and its occurrence in a string. *)
Definition isUpper (c : ascii) : bool :=
  Nat.leb 65 (nat_of_ascii c) && Nat.leb (nat_of_ascii c) 90.

Fixpoint hasUpper (s : string) : bool :=
  match s with
  | EmptyString => false
  | String c rest => isUpper c || hasUpper rest
  end.

(** Path and method of each route of a table. *)
Definition bindings (rs : list Route) : list (string * string) :=
  map (fun r => (path r, method r)) rs.



(** ** The projections on a disk whose calls can fail. *)

(** A directory entry as the three file system calls of the walk find it:
    [lstatSync] throws on an entry that is gone, [readdirSync] on a directory
    that cannot be listed, [readFileSync] on a file that cannot be read. *)
#[warnings="-register-all"]
Inductive FsNode : Type :=
| FsFile (bytes' : string)
| FsUnreadable
| FsDirectory (contents : list (string * FsNode))
| FsUnlistable
| FsSpecial
| FsGone.

(** The three projections. *)
Inductive Projection : Type :=
| ByUseStaticTs
| ByUseStatic
| ByUseDynamic.

(** The closure each one registers. *)
Definition closureOf (decode : string -> string) (how : Projection)
  : string -> string -> string -> Callback :=
  match how with
  | ByUseStaticTs => fun extension _ bytes' => StaticTs extension (decode bytes')
  | ByUseStatic => fun extension _ bytes' => Static extension (decode bytes')
  | ByUseDynamic => fun extension pathname _ => Dynamic extension pathname
  end.

(** [useStatic] calls [readFileSync] in the file branch, before anything
    else; [useDynamic] calls it inside the closure only. *)
Definition readsFiles (how : Projection) : bool :=
  match how with
  | ByUseDynamic => false
  | _ => true
  end.

(** One turn of the loop, with the calls that can throw: [lstatSync] first,
    then [readdirSync] of the recursive call or [readFileSync] of the file
    branch. *)
Fixpoint walkEntry (decode : string -> string) (how : Projection)
  (entry' : string) (dirEntry : FsNode) (directory route : string)
  (this : ServerShell) {struct dirEntry} : Completion * ServerShell :=
  let pathnameDir' := NodePath.join directory entry' in
  let pathnameRoute' := NodePath.join route entry' in
  match dirEntry with
  | FsGone => (Throw (FilesystemError pathnameDir'), this)
  | FsDirectory contents =>
      (fix each (contents : list (string * FsNode)) (this : ServerShell)
         : Completion * ServerShell :=
         match contents with
         | [] => (Normal, this)
         | (entry'', child) :: rest =>
             match walkEntry decode how entry'' child pathnameDir' pathnameRoute' this with
             | (Normal, this') => each rest this'
             | (Throw e, this') => (Throw e, this')
             end
         end) contents this
  | FsUnlistable => (Throw (FilesystemError pathnameDir'), this)
  | FsFile bytes' =>
      projectFile (closureOf decode how) entry' pathnameDir' pathnameRoute' bytes' this
  | FsUnreadable =>
      if readsFiles how then (Throw (FilesystemError pathnameDir'), this)
      else projectFile (closureOf decode how) entry' pathnameDir' pathnameRoute' "" this
  | FsSpecial => (Normal, this)
  end.

(** The loop over a listing. *)
Fixpoint walk (decode : string -> string) (how : Projection)
  (contents : list (string * FsNode)) (directory route : string)
  (this : ServerShell) : Completion * ServerShell :=
  match contents with
  | [] => (Normal, this)
  | (entry', dirEntry) :: rest =>
      match walkEntry decode how entry' dirEntry directory route this with
      | (Normal, this') => walk decode how rest directory route this'
      | (Throw e, this') => (Throw e, this')
      end
  end.

(** [useStatic(directory, route)] or [useDynamic(directory, route)] where
    [directory] is the node [root]: the first [readdirSync] throws unless it
    is a directory that can be listed. *)
Definition walkRoot (decode : string -> string) (how : Projection)
  (root : FsNode) (directory route : string) (this : ServerShell)
  : Completion * ServerShell :=
  match root with
  | FsDirectory contents => walk decode how contents directory route this
  | _ => (Throw (FilesystemError directory), this)
  end.

(** A test on every entry of a tree that is not a listed directory. *)
Fixpoint everyFs (ok : FsNode -> bool) (dirEntry : FsNode) : bool :=
  match dirEntry with
  | FsDirectory contents =>
      (fix each (contents : list (string * FsNode)) : bool :=
         match contents with
         | [] => true
         | (_, child) :: rest => everyFs ok child && each rest
         end) contents
  | other => ok other
  end.

Fixpoint everyFsAll (ok : FsNode -> bool) (contents : list (string * FsNode)) : bool :=
  match contents with
  | [] => true
  | (_, dirEntry) :: rest => everyFs ok dirEntry && everyFsAll ok rest
  end.

(** No call fails anywhere in the tree. *)
Definition isReadable (dirEntry : FsNode) : bool :=
  match dirEntry with
  | FsUnreadable | FsUnlistable | FsGone => false
  | _ => true
  end.

(** [lstatSync] and [readdirSync] fail nowhere in the tree. *)
Definition isListable (dirEntry : FsNode) : bool :=
  match dirEntry with
  | FsUnlistable | FsGone => false
  | _ => true
  end.

(** [readFileSync] fails nowhere in the tree. *)
Definition hasBytes (dirEntry : FsNode) : bool :=
  match dirEntry with
  | FsUnreadable => false
  | _ => true
  end.

(** The calls a projection makes during the walk fail nowhere in the tree. *)
Definition sound (how : Projection) : FsNode -> bool :=
  if readsFiles how then isReadable else isListable.

(** A tree without failures, as the walk of the earlier sections takes it. *)
Fixpoint toNode (dirEntry : FsNode) : Node :=
  match dirEntry with
  | FsFile bytes' => File bytes'
  | FsDirectory contents =>
      Directory
        ((fix each (contents : list (string * FsNode)) : list (string * Node) :=
            match contents with
            | [] => []
            | (entry', child) :: rest => (entry', toNode child) :: each rest
            end) contents)
  | _ => Special
  end.

Fixpoint toNodes (contents : list (string * FsNode)) : list (string * Node) :=
  match contents with
  | [] => []
  | (entry', dirEntry) :: rest => (entry', toNode dirEntry) :: toNodes rest
  end.

(** The tree of section 8 on a disk where no call fails. *)
Definition exampleDisk : FsNode :=
  FsDirectory
    [ ("a.txt", FsFile "hello");
      ("sub", FsDirectory [ ("b.png", FsFile "PNG");
                            ("index.html", FsFile "<html></html>") ]) ].

(** The same disk after [a.txt] has become unreadable and [sub] has gone. *)
Definition brokenDisk : FsNode :=
  FsDirectory [ ("a.txt", FsUnreadable); ("sub", FsGone) ].

(** * Properties. *)

(** The three parts of a test on a listing: the first name, the first entry,
    the rest. *)
Ltac split_entry H H1 H2 H3 :=
  apply andb_true_iff in H; destruct H as [H H3];
  apply andb_true_iff in H; destruct H as [H1 H2].


(** ** The MIME resolver. *)

Lemma tableLookup_In : forall table key mime,
  tableLookup table key = Some mime -> In (key, mime) table.
Proof.
  induction table as [|[k v] table IH]; simpl; intros key mime H.
  - discriminate.
  - destruct (String.eqb_spec key k) as [->|_].
    + left. congruence.
    + right. auto.
Qed.

(** The [switch] against the table, entry by entry. *)
Lemma MIMEFromExt_lookup : forall extension,
  match tableLookup mimeTable extension with
  | Some mime => MIMEFromExt extension = (mime, [])
  | None =>
      MIMEFromExt extension = ("text/plain", [unknownExtensionLine extension])
      /\ forall mime, ~ In (extension, mime) mimeTable
  end.
Proof.
  intro extension.
  unfold MIMEFromExt, mimeTable, tableLookup.
  repeat match goal with
         | |- context [extension =? ?k] =>
             destruct (String.eqb_spec extension k) as [->|?]; simpl; try reflexivity
         end.
  split; [reflexivity|].
  intros mime H. simpl in H.
  repeat (destruct H as [H|H]; [congruence|]). exact H.
Qed.

(** C9. [MIMEFromExt] is decided by exact, case-sensitive equality with the
    extensions of the table: a listed extension gets the type of its entry and
    no diagnostic ("png" gets "image/png"), every other string gets
    "text/plain" together with exactly one [console.log] line, which carries
    the extension; "PNG" and "unknownext" are such strings. *)
Theorem MIMEFromExt_table : forall extension,
  match tableLookup mimeTable extension with
  | Some mime => In (extension, mime) mimeTable /\ MIMEFromExt extension = (mime, [])
  | None =>
      MIMEFromExt extension = ("text/plain", [unknownExtensionLine extension])
      /\ forall mime, ~ In (extension, mime) mimeTable
  end
  /\ MIMEFromExt "png" = ("image/png", [])
  /\ MIMEFromExt "PNG" = ("text/plain", [unknownExtensionLine "PNG"])
  /\ MIMEFromExt "unknownext" = ("text/plain", [unknownExtensionLine "unknownext"])
  /\ unknownExtensionLine "unknownext"
     = "Encountered unknown extension while generating static routes: .unknownext - If you want this fixed as quickly as possible, open an issue at https://github.com/SaphirDeFeu/TSMServerShell-Node/issues".
Proof.
  intro extension. split; [|repeat split].
  pose proof (MIMEFromExt_lookup extension) as H.
  destruct (tableLookup mimeTable extension) as [mime|] eqn:E; [|exact H].
  split; [apply tableLookup_In, E | exact H].
Qed.

(** ** Registration. *)

(** The test each registration method runs on a route is the conflict rule
    against the binding it is about to add. *)
Lemma bind_ext : forall f g p m l this,
  (forall r, f r = g r) -> bind f p m l this = bind g p m l this.
Proof.
  intros f g p m l this H. unfold bind.
  replace (existsb g (routes this)) with (existsb f (routes this)); [reflexivity|].
  induction (routes this) as [|r rs IH]; simpl; [reflexivity|].
  rewrite H, IH. reflexivity.
Qed.

Lemma register_bind : forall op p l this,
  register op p l this
  = bind (fun route => conflicts route (mkRoute p (methodOf op) l)) p (methodOf op) l this.
Proof.
  intros op p l this.
  destruct op; unfold register, get, post, options, put, delete, any;
    apply bind_ext; intros r; unfold conflicts, conflict; simpl;
    rewrite ?orb_false_r, ?orb_true_r, ?andb_true_r; reflexivity.
Qed.

Lemma conflicts_spec : forall r p m l,
  conflicts r (mkRoute p m l) = true
  <-> path r = p /\ (method r = m \/ method r = "ANY" \/ m = "ANY").
Proof.
  intros r p m l. unfold conflicts, conflict. simpl.
  rewrite andb_true_iff, !orb_true_iff, !String.eqb_eq. tauto.
Qed.

Lemma existsb_conflicts : forall p m l rs,
  existsb (fun route => conflicts route (mkRoute p m l)) rs = true
  <-> Conflicting p m rs.
Proof.
  intros p m l rs. rewrite existsb_exists. unfold Conflicting.
  split; intros [r [Hin H]]; exists r; split; auto; apply (conflicts_spec r p m l); auto.
Qed.

Lemma register_cases : forall op p l this,
  (Conflicting p (methodOf op) (routes this)
   /\ register op p l this = (Throw (RouteAlreadyBoundError p), this))
  \/ (~ Conflicting p (methodOf op) (routes this)
      /\ register op p l this
         = (Normal, mkShell (routes this ++ [mkRoute p (methodOf op) l]) (middleware this))).
Proof.
  intros op p l this. rewrite register_bind. unfold bind, push.
  destruct (existsb _ (routes this)) eqn:E.
  - left. split; [apply (existsb_conflicts p (methodOf op) l), E | reflexivity].
  - right. split; [|reflexivity].
    intro H. apply (existsb_conflicts p (methodOf op) l) in H. congruence.
Qed.

(** C1. A registration method throws [RouteAlreadyBoundError] exactly when a
    route of the table has the same path and the same method, or [ANY] on
    either side.  When it throws, the shell is the one it was called on, so the
    listener answers every request as before; when it does not, the new route
    is pushed at the end of the table and nothing else changes. *)
Theorem register_conflict : forall (op : Registration) p l this,
  (fst (register op p l this) = Throw (RouteAlreadyBoundError p)
   <-> Conflicting p (methodOf op) (routes this))
  /\ (fst (register op p l this) = Normal
      <-> ~ Conflicting p (methodOf op) (routes this))
  /\ (Conflicting p (methodOf op) (routes this) ->
      snd (register op p l this) = this
      /\ forall decode disk req,
          requestListener decode (snd (register op p l this)) disk req
          = requestListener decode this disk req)
  /\ (~ Conflicting p (methodOf op) (routes this) ->
      snd (register op p l this)
      = mkShell (routes this ++ [mkRoute p (methodOf op) l]) (middleware this)).
Proof.
  intros op p l this.
  destruct (register_cases op p l this) as [[Hc E]|[Hn E]]; rewrite E; simpl.
  - repeat split; try tauto; try discriminate; reflexivity.
  - repeat split; try tauto; try discriminate.
Qed.

(** ** The request listener. *)

Section Listener.

Variable decode : string -> string.
Variable disk : Disk.
Variable req : Req.t.

Lemma matches_spec : forall r, matches req r = true <-> Matches req r.
Proof.
  intro r. unfold matches, Matches, equals.
  destruct (String.eqb_spec (path r) (Req.url req));
    destruct (String.eqb_spec (method r) (Req.method req));
    destruct (String.eqb_spec (method r) "ANY"); simpl; intuition congruence.
Qed.

Lemma forRoutes_cons : forall route rest found,
  forRoutes decode disk req (route :: rest) found
  = if matches req route
    then invoke decode disk req route (forRoutes decode disk req rest true)
    else forRoutes decode disk req rest found.
Proof.
  intros route rest found. unfold matches. simpl.
  destruct (equals route (Req.url req) (Req.method req)); simpl; [reflexivity|].
  destruct ((path route =? Req.url req) && (method route =? "ANY")); reflexivity.
Qed.

Lemma called_app : forall a b, called (a ++ b) = called a ++ called b.
Proof.
  induction a as [|e a IH]; intro b; simpl; [reflexivity|].
  destruct e; simpl; rewrite ?IH; reflexivity.
Qed.

Lemma middlewareCalls_app : forall a b,
  middlewareCalls (a ++ b) = middlewareCalls a + middlewareCalls b.
Proof.
  induction a as [|e a IH]; intro b; simpl; [reflexivity|].
  destruct e; simpl; rewrite ?IH; reflexivity.
Qed.

Lemma ConsoleLog_quiet : forall lines,
  called (map ConsoleLog lines) = []
  /\ middlewareCalls (map ConsoleLog lines) = 0.
Proof. induction lines; simpl; auto. Qed.

(** The body of a callback calls neither a route nor the middleware. *)
Lemma runCallback_quiet : forall c,
  called (fst (runCallback decode disk c)) = []
  /\ middlewareCalls (fst (runCallback decode disk c)) = 0.
Proof.
  intros [id|ext c|ext c|ext p]; simpl; auto.
  - destruct (MIMEFromExt ext) as [mime lines]; simpl.
    rewrite called_app, middlewareCalls_app.
    destruct (ConsoleLog_quiet lines) as [-> ->]. auto.
  - destruct (MIMEFromExt ext) as [mime lines]; simpl.
    rewrite called_app, middlewareCalls_app.
    destruct (ConsoleLog_quiet lines) as [-> ->]. auto.
  - destruct (disk p); simpl; auto.
    destruct (MIMEFromExt ext) as [mime lines]; simpl.
    rewrite called_app, middlewareCalls_app.
    destruct (ConsoleLog_quiet lines) as [-> ->]. auto.
Qed.

Lemma invoke_called : forall route continue,
  exists rest,
    called (fst (invoke decode disk req route continue)) = route :: rest
    /\ (rest = [] \/ rest = called (fst continue))
    /\ middlewareCalls (fst (invoke decode disk req route continue))
       <= middlewareCalls (fst continue).
Proof.
  intros route continue. unfold invoke.
  destruct (runCallback_quiet (callback route)) as [Hc Hm].
  destruct (runCallback decode disk (callback route)) as [events [|e]]; simpl in *.
  - exists (called (fst continue)).
    rewrite called_app, middlewareCalls_app, Hc, Hm. simpl. auto.
  - exists []. rewrite Hc, Hm. repeat split; auto. lia.
Qed.

(** Without a matching route the loop does nothing. *)
Lemma forRoutes_none : forall rs found,
  (forall r, In r rs -> matches req r = false) ->
  forRoutes decode disk req rs found = ([], (Normal, found)).
Proof.
  induction rs as [|r rs IH]; intros found H; [reflexivity|].
  rewrite forRoutes_cons, (H r (or_introl eq_refl)).
  apply IH. intros r' Hin. apply H. right. exact Hin.
Qed.

Lemma forRoutes_middleware : forall rs found,
  middlewareCalls (fst (forRoutes decode disk req rs found)) = 0.
Proof.
  induction rs as [|r rs IH]; intro found; [reflexivity|].
  rewrite forRoutes_cons. destruct (matches req r); [|apply IH].
  destruct (invoke_called r (forRoutes decode disk req rs true)) as [_ [_ [_ H]]].
  rewrite IH in H. lia.
Qed.

(** The loop calls the first matching route, and calls only matching routes,
    in table order. *)
Lemma forRoutes_called : forall rs found,
  exists n,
    called (fst (forRoutes decode disk req rs found))
    = firstn n (filter (matches req) rs)
    /\ (filter (matches req) rs <> [] -> 0 < n).
Proof.
  induction rs as [|r rs IH]; intro found.
  - exists 0. split; [reflexivity|]. intro H. exfalso. apply H. reflexivity.
  - rewrite forRoutes_cons. simpl. destruct (matches req r) eqn:E.
    + destruct (invoke_called r (forRoutes decode disk req rs true))
        as [rest [-> [[->| ->] _]]].
      * exists 1. split; [reflexivity | lia].
      * destruct (IH true) as [n [-> _]]. exists (S n). split; [reflexivity | lia].
    + apply IH.
Qed.

End Listener.

(** Without a matching route the listener runs the middleware and writes the
    404. *)
Lemma requestListener_unmatched : forall decode this disk req,
  (forall r, In r (routes this) -> ~ Matches req r) ->
  requestListener decode this disk req
  = ([MiddlewareCalled (middleware this) req;
      WriteHead 404 [("Content-Type", Text "text/html")];
      End_ ("Cannot get " +++ Req.url req)], Normal).
Proof.
  intros decode this disk req H.
  unfold requestListener. rewrite forRoutes_none; [reflexivity|].
  intros r Hin. destruct (matches req r) eqn:E; [|reflexivity].
  exfalso. apply (H r Hin). apply matches_spec. exact E.
Qed.

(** C4. A request that matches no route of the table gets status 404 with the
    header [Content-Type: text/html] and the body "Cannot get " followed by
    the request's [url] as it is, and the response is ended; the listener
    calls no route's callback: after the middleware these two writes are all
    that happens. *)
Theorem unmatched_request_404 : forall decode this disk req,
  (forall r, In r (routes this) -> ~ Matches req r) ->
  requestListener decode this disk req
  = ([MiddlewareCalled (middleware this) req;
      WriteHead 404 [("Content-Type", Text "text/html")];
      End_ ("Cannot get " +++ Req.url req)], Normal)
  /\ called (fst (requestListener decode this disk req)) = [].
Proof.
  intros decode this disk req H.
  rewrite (requestListener_unmatched decode this disk req H). split; reflexivity.
Qed.

Lemma unmatched_request_404_witness :
  requestListener (fun bytes => bytes)
    (mkShell [mkRoute "/home" "GET" (Listener 0)] NoOp) (fun _ => None)
    (Req.make "/missing?x=<1>" "GET")
  = ([MiddlewareCalled NoOp (Req.make "/missing?x=<1>" "GET");
      WriteHead 404 [("Content-Type", Text "text/html")];
      End_ "Cannot get /missing?x=<1>"], Normal)
  /\ called (fst (requestListener (fun bytes => bytes)
       (mkShell [mkRoute "/home" "GET" (Listener 0)] NoOp) (fun _ => None)
       (Req.make "/missing?x=<1>" "GET"))) = [].
Proof.
  apply (unmatched_request_404 (fun bytes => bytes)
           (mkShell [mkRoute "/home" "GET" (Listener 0)] NoOp) (fun _ => None)
           (Req.make "/missing?x=<1>" "GET")).
  intros r [<-|[]] [Hpath _]. simpl in Hpath. discriminate.
Defined.

(** C5. The listener calls the function in the middleware slot first, before
    it looks at the table or calls any callback, and never again for that
    request, whatever the table holds; the slot is one field, and [use] puts
    its argument there in place of what was there, leaving the table alone. *)
Theorem middleware_once_first : forall decode this disk req,
  (exists rest,
      fst (requestListener decode this disk req)
      = MiddlewareCalled (middleware this) req :: rest
      /\ middlewareCalls rest = 0)
  /\ middlewareCalls (fst (requestListener decode this disk req)) = 1
  /\ (forall f g,
        middleware (use f this) = f
        /\ middleware (use g (use f this)) = g
        /\ routes (use f this) = routes this).
Proof.
  intros decode this disk req.
  assert (H : exists rest,
             fst (requestListener decode this disk req)
             = MiddlewareCalled (middleware this) req :: rest
             /\ middlewareCalls rest = 0).
  { unfold requestListener.
    pose proof (forRoutes_middleware decode disk req (routes this) false) as Hm.
    destruct (forRoutes decode disk req (routes this) false) as [events [completion found]].
    simpl in *. eexists. split; [reflexivity|].
    rewrite middlewareCalls_app, Hm.
    destruct completion; [destruct found|]; reflexivity. }
  split; [exact H|]. split.
  - destruct H as [rest [-> H]]. simpl. rewrite H. reflexivity.
  - intros f g. repeat split.
Qed.

(** ** The table stays free of conflicts. *)

Lemma conflictFree_push : forall rs r,
  conflictFree rs -> (forall r', In r' rs -> conflicts r' r = false) ->
  conflictFree (rs ++ [r]).
Proof.
  induction rs as [|a rs IH]; intros r Hf Hr; simpl.
  - split; [intros r' []| exact I].
  - destruct Hf as [Ha Hf]. split.
    + intros r' Hin. apply in_app_or in Hin. destruct Hin as [Hin|[<-|[]]].
      * apply Ha, Hin.
      * apply Hr. left. reflexivity.
    + apply IH; [exact Hf|]. intros r' Hin. apply Hr. right. exact Hin.
Qed.

Lemma bind_conflictFree : forall p m l this,
  conflictFree (routes this) ->
  conflictFree
    (routes (snd (bind (fun route => conflicts route (mkRoute p m l)) p m l this))).
Proof.
  intros p m l this H. unfold bind.
  destruct (existsb _ (routes this)) eqn:E; simpl; [exact H|].
  apply conflictFree_push; [exact H|].
  intros r' Hin. destruct (conflicts r' (mkRoute p m l)) eqn:Ec; [|reflexivity].
  assert (existsb (fun route => conflicts route (mkRoute p m l)) (routes this) = true)
    by (apply existsb_exists; exists r'; auto).
  congruence.
Qed.

Lemma matches_conflicts : forall req a b,
  matches req a = true -> matches req b = true -> conflicts a b = true.
Proof.
  intros req a b Ha Hb.
  apply matches_spec in Ha. apply matches_spec in Hb.
  destruct Ha as [Pa Ma], Hb as [Pb Mb].
  unfold conflicts, conflict.
  apply andb_true_iff. split; [apply String.eqb_eq; congruence|].
  rewrite !orb_true_iff, !String.eqb_eq.
  destruct Ma as [Ma|Ma], Mb as [Mb|Mb]; auto. left. left. congruence.
Qed.

Lemma conflictFree_one_match : forall req rs,
  conflictFree rs -> length (filter (matches req) rs) <= 1.
Proof.
  induction rs as [|a rs IH]; intros H; simpl; [lia|].
  destruct H as [Ha Hf]. destruct (matches req a) eqn:E; [|auto].
  assert (N : filter (matches req) rs = []).
  { destruct (filter (matches req) rs) as [|b l] eqn:F; [reflexivity|].
    assert (Hb : In b (filter (matches req) rs)) by (rewrite F; left; reflexivity).
    apply filter_In in Hb. destruct Hb as [Hin Hm].
    specialize (Ha b Hin). rewrite (matches_conflicts req a b E Hm) in Ha. discriminate. }
  rewrite N. simpl. lia.
Qed.

(** ** The projection is the file branch run on each regular file in turn. *)

(** Induction on a tree, with the hypothesis for every entry of a directory. *)
Lemma Node_tree_ind : forall P : Node -> Prop,
  (forall bytes', P (File bytes')) ->
  (forall contents, Forall (fun e => P (snd e)) contents -> P (Directory contents)) ->
  P Special ->
  forall n, P n.
Proof.
  intros P HF HD HS. fix IH 1. intros [b|contents|].
  - apply HF.
  - apply HD. induction contents as [|[e c] contents IHc]; constructor.
    + apply IH.
    + exact IHc.
  - apply HS.
Qed.

Section Projection.

Variable closure : string -> string -> string -> Callback.

Lemma projectEntry_Directory : forall entry' contents directory route this,
  projectEntry closure entry' (Directory contents) directory route this
  = project closure contents (NodePath.join directory entry')
      (NodePath.join route entry') this.
Proof.
  intros entry' contents directory route. simpl.
  induction contents as [|[e c] contents IH]; intro this; [reflexivity|].
  simpl. destruct (projectEntry closure e c _ _ this) as [[|err] this'];
    [apply IH | reflexivity].
Qed.

Lemma visitsEntry_Directory : forall entry' contents directory route,
  visitsEntry entry' (Directory contents) directory route
  = visits contents (NodePath.join directory entry') (NodePath.join route entry').
Proof.
  intros entry' contents directory route. simpl.
  induction contents as [|[e c] contents IH]; [reflexivity|].
  simpl. rewrite IH. reflexivity.
Qed.

Lemma projectAll_app : forall vs ws this,
  projectAll closure (vs ++ ws) this
  = match projectAll closure vs this with
    | (Normal, this') => projectAll closure ws this'
    | (Throw e, this') => (Throw e, this')
    end.
Proof.
  induction vs as [|v vs IH]; intros ws this; simpl; [reflexivity|].
  destruct (projectFile closure _ _ _ _ this) as [[|e] this']; [apply IH | reflexivity].
Qed.

Lemma projectEntry_visits : forall dirEntry entry' directory route this,
  projectEntry closure entry' dirEntry directory route this
  = projectAll closure (visitsEntry entry' dirEntry directory route) this.
Proof.
  induction dirEntry as [b|contents IH|] using Node_tree_ind;
    intros entry' directory route this.
  - simpl. destruct (projectFile closure _ _ _ _ this) as [[|e] this']; reflexivity.
  - rewrite projectEntry_Directory, visitsEntry_Directory.
    generalize (NodePath.join directory entry') as d.
    generalize (NodePath.join route entry') as r. intros r d. revert this.
    induction IH as [|[e c] contents Hc _ IHc]; intro this; [reflexivity|].
    simpl in *. rewrite projectAll_app, <- Hc.
    destruct (projectEntry closure e c d r this) as [[|err] this'];
      [apply IHc | reflexivity].
  - reflexivity.
Qed.

(** The projection runs the file branch on the regular files of the tree in
    walk order and stops at the first one whose [get] throws. *)
Lemma project_visits : forall contents directory route this,
  project closure contents directory route this
  = projectAll closure (visits contents directory route) this.
Proof.
  induction contents as [|[e c] contents IH]; intros directory route this;
    [reflexivity|].
  simpl. rewrite projectAll_app, <- projectEntry_visits.
  destruct (projectEntry closure e c directory route this) as [[|err] this'];
    [apply IH | reflexivity].
Qed.

Lemma projectFile_get : forall v this,
  projectFile closure (entry v) (pathnameDir v) (pathnameRoute v) (bytes v) this
  = get (routeOf v) (callback (routeFor closure v)) this.
Proof. reflexivity. Qed.

(** What the table holds after a run: the routes of the visits that were
    accepted, pushed in order after those already there. *)
Lemma projectAll_routes : forall vs this,
  exists n,
    snd (projectAll closure vs this)
    = mkShell (routes this ++ map (routeFor closure) (firstn n vs)) (middleware this)
    /\ (fst (projectAll closure vs this) = Normal -> firstn n vs = vs).
Proof.
  induction vs as [|v vs IH]; intro this.
  - exists 0. simpl. rewrite app_nil_r. destruct this; auto.
  - simpl. rewrite projectFile_get.
    destruct (register_cases ByGet (routeOf v) (callback (routeFor closure v)) this)
      as [[_ E]|[_ E]]; cbn [register methodOf] in E; rewrite E.
    + exists 0. simpl. rewrite app_nil_r. destruct this; split; [auto | discriminate].
    + destruct (IH (mkShell (routes this ++ [mkRoute (routeOf v) "GET"
                                              (callback (routeFor closure v))])
                      (middleware this))) as [n [Hn Hall]].
      exists (S n). split.
      * rewrite Hn. simpl. rewrite <- app_assoc. reflexivity.
      * intro Hok. simpl. rewrite (Hall Hok). reflexivity.
Qed.

(** Whatever [get] preserves, the projection preserves. *)
Lemma projectAll_preserves : forall P : ServerShell -> Prop,
  (forall p l this, P this -> P (snd (get p l this))) ->
  forall vs this, P this -> P (snd (projectAll closure vs this)).
Proof.
  intros P Hget. induction vs as [|v vs IH]; intros this H; [exact H|].
  simpl. specialize (Hget (routeOf v) (callback (routeFor closure v)) this H).
  rewrite projectFile_get.
  destruct (get (routeOf v) (callback (routeFor closure v)) this) as [[|e] this'];
    simpl in *; [apply IH|]; exact Hget.
Qed.

End Projection.

Lemma perform_conflictFree : forall decode c this,
  conflictFree (routes this) -> conflictFree (routes (snd (perform decode c this))).
Proof.
  intros decode c this H.
  assert (G : forall p l s, conflictFree (routes s) -> conflictFree (routes (snd (get p l s)))).
  { intros p l s Hs. change (get p l s) with (register ByGet p l s).
    rewrite register_bind. apply bind_conflictFree, Hs. }
  destruct c as [p l|p l|p l|p l|p l|p l|f|cs d r|cs d r|cs d r]; simpl.
  - apply G, H.
  - change (post p l this) with (register ByPost p l this).
    rewrite register_bind. apply bind_conflictFree, H.
  - change (options p l this) with (register ByOptions p l this).
    rewrite register_bind. apply bind_conflictFree, H.
  - change (put p l this) with (register ByPut p l this).
    rewrite register_bind. apply bind_conflictFree, H.
  - change (delete p l this) with (register ByDelete p l this).
    rewrite register_bind. apply bind_conflictFree, H.
  - change (any p l this) with (register ByAny p l this).
    rewrite register_bind. apply bind_conflictFree, H.
  - exact H.
  - unfold Ts.useStatic. rewrite project_visits.
    apply (projectAll_preserves _ (fun s => conflictFree (routes s)) G), H.
  - unfold Dist.useStatic. rewrite project_visits.
    apply (projectAll_preserves _ (fun s => conflictFree (routes s)) G), H.
  - unfold Dist.useDynamic. rewrite project_visits.
    apply (projectAll_preserves _ (fun s => conflictFree (routes s)) G), H.
Qed.

Lemma reachable_conflictFree : forall decode this,
  reachable decode this -> conflictFree (routes this).
Proof.
  intros decode this H. induction H as [|c this _ IH].
  - exact I.
  - apply perform_conflictFree, IH.
Qed.

Lemma requestListener_called : forall decode this disk req,
  called (fst (requestListener decode this disk req))
  = called (fst (forRoutes decode disk req (routes this) false)).
Proof.
  intros decode this disk req. unfold requestListener.
  destruct (forRoutes decode disk req (routes this) false) as [events [completion found]].
  simpl. rewrite called_app.
  destruct completion; [destruct found|]; simpl; apply app_nil_r.
Qed.

(** With at most one matching route, the listener calls exactly the routes
    that match. *)
Lemma requestListener_calls_match : forall decode this disk req,
  conflictFree (routes this) ->
  called (fst (requestListener decode this disk req))
  = filter (matches req) (routes this).
Proof.
  intros decode this disk req H. rewrite requestListener_called.
  pose proof (conflictFree_one_match req (routes this) H) as Hlen.
  destruct (forRoutes_called decode disk req (routes this) false) as [n [-> Hn]].
  destruct (filter (matches req) (routes this)) as [|r [|r' l]]; simpl in *.
  - destruct n; reflexivity.
  - destruct n as [|n]; [exfalso; assert (0 < 0) by (apply Hn; discriminate); lia|].
    destruct n; reflexivity.
  - lia.
Qed.

(** C3. In a shell built from [new ServerShell] by the registration methods,
    [use] and the asset projections, no two routes of the table satisfy the
    conflict rule; so a request matches at most one route, and the listener
    calls at most one callback for it. *)
Theorem reachable_no_conflict : forall decode this,
  reachable decode this ->
  conflictFree (routes this)
  /\ (forall i j a b,
        i < j -> nth_error (routes this) i = Some a ->
        nth_error (routes this) j = Some b -> conflicts a b = false)
  /\ (forall disk req,
        length (filter (matches req) (routes this)) <= 1
        /\ length (called (fst (requestListener decode this disk req))) <= 1).
Proof.
  intros decode this H. apply reachable_conflictFree in H.
  split; [exact H|]. split.
  - revert H. generalize (routes this) as rs.
    induction rs as [|r rs IH]; intros Hrs i j a b Hij Hi Hj.
    + destruct i; discriminate.
    + destruct Hrs as [Hr Hf].
      destruct j as [|j]; [lia|]. simpl in Hj. destruct i as [|i]; simpl in Hi.
      * injection Hi as <-. apply Hr. eapply nth_error_In, Hj.
      * apply (IH Hf i j); auto. lia.
  - intros disk req. rewrite requestListener_calls_match by exact H.
    split; apply conflictFree_one_match, H.
Qed.

Lemma reachable_no_conflict_witness :
  reachable decodeAscii exampleShell
  /\ conflictFree (routes exampleShell)
  /\ (forall i j a b,
        i < j -> nth_error (routes exampleShell) i = Some a ->
        nth_error (routes exampleShell) j = Some b -> conflicts a b = false)
  /\ (forall disk req,
        length (filter (matches req) (routes exampleShell)) <= 1
        /\ length (called (fst (requestListener decodeAscii exampleShell disk req))) <= 1).
Proof.
  assert (R : reachable decodeAscii exampleShell).
  { unfold exampleShell. repeat apply reachable_call. apply reachable_new. }
  split; [exact R|]. exact (reachable_no_conflict decodeAscii exampleShell R).
Defined.

(** C2. In a shell built through the registration API, a request for the path
    and method of a registered route makes the listener call that route and no
    other.  A request for a path with a method no route has at that path makes
    it call the [ANY] route of the path when there is one, and otherwise call
    nothing and answer 404. *)
Theorem dispatch_registered : forall decode this,
  reachable decode this ->
  forall disk,
    (forall r, In r (routes this) ->
       called (fst (requestListener decode this disk (Req.make (path r) (method r))))
       = [r])
    /\ (forall p m,
          (forall r, In r (routes this) -> ~ (path r = p /\ method r = m)) ->
          (forall a, In a (routes this) -> path a = p -> method a = "ANY" ->
             called (fst (requestListener decode this disk (Req.make p m))) = [a])
          /\ ((forall a, In a (routes this) -> ~ (path a = p /\ method a = "ANY")) ->
              requestListener decode this disk (Req.make p m)
              = ([MiddlewareCalled (middleware this) (Req.make p m);
                  WriteHead 404 [("Content-Type", Text "text/html")];
                  End_ ("Cannot get " +++ p)], Normal))).
Proof.
  intros decode this H disk. apply reachable_conflictFree in H.
  assert (One : forall req r, In r (routes this) -> Matches req r ->
                 called (fst (requestListener decode this disk req)) = [r]).
  { intros req r Hin Hm. rewrite requestListener_calls_match by exact H.
    pose proof (conflictFree_one_match req (routes this) H) as Hlen.
    assert (Hf : In r (filter (matches req) (routes this)))
      by (apply filter_In; split; [exact Hin | apply matches_spec, Hm]).
    destruct (filter (matches req) (routes this)) as [|x [|y l]]; simpl in *.
    - contradiction.
    - destruct Hf as [->|[]]. reflexivity.
    - lia. }
  split.
  - intros r Hin. apply One; [exact Hin|]. split; simpl; auto.
  - intros p m Hnone. split.
    + intros a Hin Hp Hm. apply One; [exact Hin|]. split; simpl; auto.
    + intros Hany.
      apply (requestListener_unmatched decode this disk (Req.make p m)).
      intros r Hin [Hp [Hm|Hm]]; simpl in *.
      * apply (Hnone r Hin). auto.
      * apply (Hany r Hin). auto.
Qed.

Lemma dispatch_registered_witness :
  reachable decodeAscii exampleShell
  /\ called (fst (requestListener decodeAscii exampleShell (fun _ => None)
                    (Req.make "/get" "GET")))
     = [mkRoute "/get" "GET" (Listener 0)]
  /\ called (fst (requestListener decodeAscii exampleShell (fun _ => None)
                    (Req.make "/all" "DELETE")))
     = [mkRoute "/all" "ANY" (Listener 1)]
  /\ requestListener decodeAscii exampleShell (fun _ => None) (Req.make "/get" "POST")
     = ([MiddlewareCalled NoOp (Req.make "/get" "POST");
         WriteHead 404 [("Content-Type", Text "text/html")];
         End_ "Cannot get /get"], Normal).
Proof.
  assert (R : reachable decodeAscii exampleShell).
  { unfold exampleShell. repeat apply reachable_call. apply reachable_new. }
  destruct (dispatch_registered decodeAscii exampleShell R (fun _ => None)) as [Hreg Hother].
  split; [exact R|]. split; [|split].
  - apply (Hreg (mkRoute "/get" "GET" (Listener 0))). vm_compute. auto.
  - apply (Hother "/all" "DELETE").
    + intros r Hin [Hp Hm]. vm_compute in Hin.
      repeat (destruct Hin as [<-|Hin]; [discriminate|]). exact Hin.
    + vm_compute. auto.
    + reflexivity.
    + reflexivity.
  - apply (Hother "/get" "POST").
    + intros r Hin [Hp Hm]. vm_compute in Hin.
      repeat (destruct Hin as [<-|Hin]; [discriminate|]). exact Hin.
    + intros r Hin [Hp Hm]. vm_compute in Hin.
      repeat (destruct Hin as [<-|Hin]; [discriminate|]). exact Hin.
Defined.

(** ** Strings: splitting, joining and the paths of [node:path]. *)

Lemma append_assoc : forall s t u : string, (s +++ t) +++ u = s +++ t +++ u.
Proof. induction s as [|c s IH]; intros t u; simpl; [|rewrite IH]; reflexivity. Qed.

Lemma append_empty_r : forall s : string, s +++ "" = s.
Proof. induction s as [|c s IH]; simpl; [|rewrite IH]; reflexivity. Qed.

Lemma split_not_nil : forall c s, Js.split c s <> [].
Proof.
  intros c [|a s]; simpl; [discriminate|].
  destruct (Ascii.eqb a c); [discriminate|].
  destruct (Js.split c s); discriminate.
Qed.

(** A string without the separator is its own single piece. *)
Lemma split_whole : forall c s, Js.includes c s = false -> Js.split c s = [s].
Proof.
  induction s as [|a s IH]; simpl; intro H; [reflexivity|].
  apply orb_false_iff in H. destruct H as [Ha Hs].
  rewrite Ha, (IH Hs). reflexivity.
Qed.

Lemma split_append_sep : forall c s t,
  Js.includes c s = false ->
  Js.split c (s +++ String c t) = s :: Js.split c t.
Proof.
  induction s as [|a s IH]; simpl; intros t H.
  - rewrite Ascii.eqb_refl. reflexivity.
  - apply orb_false_iff in H. destruct H as [Ha Hs].
    rewrite Ha, (IH t Hs). reflexivity.
Qed.

Lemma join_cons : forall c x l,
  l <> [] -> Js.join (String c "") (x :: l) = x +++ String c (Js.join (String c "") l).
Proof. intros c x [|y l] H; [contradiction | reflexivity]. Qed.

(** Splitting undoes joining pieces that are free of the separator. *)
Lemma split_join : forall c l,
  Forall (fun x => Js.includes c x = false) l -> l <> [] ->
  Js.split c (Js.join (String c "") l) = l.
Proof.
  intros c l H. induction H as [|x l Hx Hl IH]; intro Hne; [contradiction|].
  destruct l as [|y l].
  - apply split_whole, Hx.
  - rewrite join_cons by discriminate.
    rewrite split_append_sep by exact Hx.
    rewrite IH by discriminate. reflexivity.
Qed.

(** Joining undoes splitting. *)
Lemma join_split : forall c s, Js.join (String c "") (Js.split c s) = s.
Proof.
  induction s as [|a s IH]; [reflexivity|]. simpl Js.split.
  destruct (Ascii.eqb_spec a c) as [->|Hac].
  - rewrite join_cons by apply split_not_nil. rewrite IH. reflexivity.
  - destruct (Js.split c s) as [|w ws] eqn:E; [exfalso; apply (split_not_nil c s E)|].
    destruct ws as [|w' ws]; simpl in *; rewrite IH; reflexivity.
Qed.

Lemma join_snoc : forall c l e,
  l <> [] ->
  Js.join (String c "") (l ++ [e]) = Js.join (String c "") l +++ String c e.
Proof.
  induction l as [|x l IH]; intros e H; [contradiction|].
  destruct l as [|y l].
  - reflexivity.
  - change ((x :: y :: l) ++ [e]) with (x :: (y :: l) ++ [e]).
    rewrite !join_cons by discriminate.
    rewrite IH by discriminate. rewrite append_assoc. reflexivity.
Qed.

Lemma lastChar_append : forall s t, t <> "" -> Js.lastChar (s +++ t) = Js.lastChar t.
Proof.
  induction s as [|a s IH]; intros t H; [reflexivity|].
  simpl. rewrite (IH t H).
  destruct (s +++ t) eqn:E; [|reflexivity].
  destruct s; simpl in E; [contradiction | discriminate].
Qed.

Lemma lastChar_includes : forall c s,
  Js.lastChar s = Some c -> Js.includes c s = true.
Proof.
  induction s as [|a s IH]; simpl; [discriminate|].
  destruct s as [|b s].
  - intros [= ->]. rewrite Ascii.eqb_refl. reflexivity.
  - intro H. rewrite (IH H). apply orb_true_r.
Qed.

Lemma segment_spec : forall s,
  segment s = true
  <-> s <> "" /\ s <> "." /\ s <> ".." /\ Js.includes "/"%char s = false.
Proof.
  intro s. unfold segment.
  rewrite !andb_true_iff, !negb_true_iff, !String.eqb_neq. tauto.
Qed.

Lemma pushSegment_segment : forall allow res s,
  segment s = true -> NodePath.pushSegment allow res s = s :: res.
Proof.
  intros allow res s H. apply segment_spec in H. destruct H as [H1 [H2 [H3 _]]].
  unfold NodePath.pushSegment.
  apply String.eqb_neq in H1, H2, H3. rewrite H1, H2, H3. reflexivity.
Qed.

Lemma fold_pushSegment : forall allow l res,
  Forall (fun s => segment s = true) l ->
  fold_left (NodePath.pushSegment allow) l res = rev l ++ res.
Proof.
  induction l as [|s l IH]; intros res H; [reflexivity|].
  inversion H as [|? ? Hs Hl]; subst. simpl.
  rewrite pushSegment_segment by exact Hs. rewrite (IH _ Hl), <- app_assoc. reflexivity.
Qed.

Lemma segments_no_sep : forall l,
  Forall (fun s => segment s = true) l ->
  Forall (fun s => Js.includes "/"%char s = false) l.
Proof.
  intros l H. eapply Forall_impl; [|exact H].
  intros s Hs. apply segment_spec in Hs. tauto.
Qed.

Lemma join_not_empty : forall sep l,
  l <> [] -> Forall (fun s => s <> "") l -> Js.join sep l <> "".
Proof.
  intros sep [|x l] Hne H; [contradiction|].
  inversion H as [|? ? Hx _]; subst.
  destruct l; simpl; destruct x; try contradiction; discriminate.
Qed.

(** [normalize] on a rooted path whose last piece is not empty: the pieces
    between slashes go through [pushSegment], and no slash is added at the
    end. *)
Lemma normalize_rooted : forall l e,
  Forall (fun s => Js.includes "/"%char s = false) l ->
  Js.includes "/"%char e = false -> e <> "" ->
  NodePath.normalize ("/" +++ Js.join "/" (l ++ [e]))
  = "/" +++ Js.join "/" (rev (fold_left (NodePath.pushSegment false) (l ++ [e]) [])).
Proof.
  intros l e Hl He Hne.
  assert (Hall : Forall (fun s => Js.includes "/"%char s = false) (l ++ [e]))
    by (apply Forall_app; split; [exact Hl | constructor; [exact He | constructor]]).
  assert (Hnil : l ++ [e] <> []) by (destruct l; discriminate).
  assert (Hlast : NodePath.trailingSeparator ("/" +++ Js.join "/" (l ++ [e])) = false).
  { unfold NodePath.trailingSeparator.
    assert (E : exists pre, "/" +++ Js.join "/" (l ++ [e]) = pre +++ e).
    { destruct l as [|x l].
      - exists "/". reflexivity.
      - exists ("/" +++ Js.join "/" (x :: l) +++ "/").
        rewrite (join_snoc "/"%char) by discriminate.
        rewrite !append_assoc. reflexivity. }
    destruct E as [pre ->]. rewrite lastChar_append by exact Hne.
    destruct (Js.lastChar e) as [c|] eqn:Ec; [|reflexivity].
    destruct (Ascii.eqb_spec c NodePath.sep) as [->|]; [|reflexivity].
    apply lastChar_includes in Ec. unfold NodePath.sep in Ec. congruence. }
  unfold NodePath.normalize. rewrite Hlast.
  unfold NodePath.normalizeString.
  change (NodePath.isAbsolute ("/" +++ Js.join "/" (l ++ [e]))) with true.
  change (("/" +++ Js.join "/" (l ++ [e])) =? "") with false.
  change (Js.split NodePath.sep ("/" +++ Js.join "/" (l ++ [e])))
    with ("" :: Js.split "/"%char (Js.join "/" (l ++ [e]))).
  rewrite (split_join "/"%char) by assumption.
  change (fold_left (NodePath.pushSegment (negb true)) ("" :: l ++ [e]) [])
    with (fold_left (NodePath.pushSegment false) (l ++ [e]) []).
  cbv zeta.
  destruct (String.eqb_spec
              (Js.join "/" (rev (fold_left (NodePath.pushSegment false) (l ++ [e]) []))) "")
    as [->|_]; reflexivity.
Qed.

(** [join(route, entry)] for a rooted route and a name that is a segment. *)
Lemma join_absolute_segment : forall ps e,
  Forall (fun s => segment s = true) ps -> segment e = true ->
  NodePath.join (absolute ps) e = absolute (ps ++ [e]).
Proof.
  intros ps e Hps He.
  pose proof (proj1 (segment_spec e) He) as [Hne [_ [_ Hsep]]].
  unfold NodePath.join.
  change (absolute ps =? "") with false.
  destruct (String.eqb_spec e "") as [|_]; [contradiction|].
  destruct ps as [|p ps].
  - change (absolute [] +++ "/" +++ e) with ("/" +++ Js.join "/" ([""] ++ [e])).
    rewrite normalize_rooted; [|repeat constructor|exact Hsep|exact Hne].
    simpl fold_left.
    change (NodePath.pushSegment false [] "") with (@nil string).
    rewrite pushSegment_segment by exact He. reflexivity.
  - unfold absolute. rewrite append_assoc.
    change ("/" +++ e) with (String "/" e).
    rewrite <- (join_snoc "/"%char) by discriminate.
    rewrite normalize_rooted;
      [|apply segments_no_sep; exact Hps|exact Hsep|exact Hne].
    rewrite fold_pushSegment
      by (apply Forall_app; split; [exact Hps | constructor; [exact He | constructor]]).
    rewrite app_nil_r, rev_involutive. reflexivity.
Qed.

(** [join(route, '..')] for the route of an entry gives back the route of its
    directory. *)
Lemma join_absolute_parent : forall ps e,
  Forall (fun s => segment s = true) ps -> segment e = true ->
  NodePath.join (absolute (ps ++ [e])) ".." = absolute ps.
Proof.
  intros ps e Hps He.
  pose proof (proj1 (segment_spec e) He) as [_ [_ [Hdd _]]].
  assert (Hall : Forall (fun s => segment s = true) (ps ++ [e]))
    by (apply Forall_app; split; [exact Hps | constructor; [exact He | constructor]]).
  unfold NodePath.join.
  change (absolute (ps ++ [e]) =? "") with false.
  change (".." =? "") with false. cbv iota.
  unfold absolute. rewrite append_assoc.
  change ("/" +++ "..") with (String "/" "..").
  rewrite <- (join_snoc "/"%char) by (destruct ps; discriminate).
  rewrite normalize_rooted;
    [|apply segments_no_sep; exact Hall|reflexivity|discriminate].
  rewrite fold_left_app, (fold_pushSegment false (ps ++ [e]) [] Hall).
  rewrite app_nil_r, rev_app_distr. simpl.
  unfold NodePath.pushSegment.
  change ((".." =? "") || (".." =? ".")) with false.
  change (".." =? "..") with true. cbv iota.
  apply String.eqb_neq in Hdd. rewrite Hdd.
  rewrite rev_involutive. reflexivity.
Qed.

(** ** What the file branch makes of a file name. *)

Lemma split_last : forall c s,
  Js.split c s = removelast (Js.split c s) ++ [last (Js.split c s) ""].
Proof. intros c s. apply app_removelast_last, split_not_nil. Qed.

(** With a dot in the name, the name is base, dot, extension. *)
Lemma name_dot_extension : forall e,
  removelast (Js.split "."%char e) <> [] ->
  e = nameOf e +++ "." +++ extensionOf e.
Proof.
  intros e H. unfold nameOf, extensionOf.
  rewrite <- (join_split "."%char e) at 1.
  rewrite (split_last "."%char e) at 1.
  rewrite (join_snoc "."%char) by exact H. reflexivity.
Qed.

(** The rewrite of the route is taken for the name [index.html] and for no
    other. *)
Lemma index_html_test : forall e,
  (nameOf e =? "index") && (extensionOf e =? "html") = (e =? "index.html").
Proof.
  intro e. destruct (String.eqb_spec e "index.html") as [->|Hne]; [reflexivity|].
  apply andb_false_iff.
  destruct (String.eqb_spec (nameOf e) "index") as [Hn|]; [|left; reflexivity].
  destruct (String.eqb_spec (extensionOf e) "html") as [Hx|]; [|right; reflexivity].
  exfalso. apply Hne.
  assert (H : removelast (Js.split "."%char e) <> []).
  { intro E. unfold nameOf in Hn. rewrite E in Hn. discriminate. }
  rewrite (name_dot_extension e H), Hn, Hx. reflexivity.
Qed.


(** ** The walk against the layout of the specification. *)

Lemma everyEntry_Directory : forall p contents,
  everyEntry p (Directory contents) = everyName p contents.
Proof.
  intros p contents. simpl.
  induction contents as [|[e c] contents IH]; [reflexivity|].
  simpl. rewrite IH. reflexivity.
Qed.

Lemma everyName_weaken : forall (p q : string -> list string -> bool),
  (forall e later, p e later = true -> q e later = true) ->
  forall contents, everyName p contents = true -> everyName q contents = true.
Proof.
  intros p q Hpq.
  assert (E : forall n, everyEntry p n = true -> everyEntry q n = true).
  { induction n as [b|contents IH|] using Node_tree_ind; intro H; try reflexivity.
    rewrite everyEntry_Directory in *.
    induction IH as [|[e c] contents Hc _ IHc]; [reflexivity|].
    simpl in *. split_entry H H1 H2 H3.
    rewrite (Hpq _ _ H1), (Hc H2), (IHc H3). reflexivity. }
  induction contents as [|[e c] contents IH]; intro H; [reflexivity|].
  simpl in *. split_entry H H1 H2 H3.
  rewrite (Hpq _ _ H1), (E c H2), (IH H3). reflexivity.
Qed.

Lemma wellFormed_segmentNames : forall contents,
  wellFormed contents = true -> segmentNames contents = true.
Proof.
  apply everyName_weaken. intros e later H. unfold portable in H.
  apply andb_true_iff in H. destruct H as [H _].
  apply andb_true_iff in H. tauto.
Qed.

Lemma regularFilesEntry_Directory : forall e contents,
  regularFilesEntry e (Directory contents)
  = map (fun f => (e :: fst f, snd f)) (regularFiles contents).
Proof.
  intros e contents. reflexivity.
Qed.

Lemma regularFilesEntry_not_nil : forall e n f,
  In f (regularFilesEntry e n) -> fst f <> [].
Proof.
  intros e [b|contents|] f Hin.
  - destruct Hin as [<-|[]]. discriminate.
  - rewrite regularFilesEntry_Directory in Hin. apply in_map_iff in Hin.
    destruct Hin as [g [<- _]]. discriminate.
  - contradiction.
Qed.

(** Each regular file of a listing comes from one of its entries. *)
Lemma regularFiles_entry : forall contents f,
  In f (regularFiles contents) ->
  exists e n, In (e, n) contents /\ In f (regularFilesEntry e n).
Proof.
  induction contents as [|[e n] contents IH]; intros f Hin; [contradiction|].
  simpl in Hin. apply in_app_or in Hin. destruct Hin as [Hin|Hin].
  - exists e, n. split; [left; reflexivity | exact Hin].
  - destruct (IH f Hin) as [e' [n' [H1 H2]]]. exists e', n'. split; [right|]; assumption.
Qed.

Lemma regularFiles_not_nil : forall contents f,
  In f (regularFiles contents) -> fst f <> [].
Proof.
  intros contents f Hin. destruct (regularFiles_entry contents f Hin) as [e [n [_ H]]].
  exact (regularFilesEntry_not_nil e n f H).
Qed.

(** What holds of every name of the tree holds of every segment of the
    relative path of a regular file. *)
Lemma regularFiles_names : forall (q : string -> bool) contents,
  everyName (fun entry' _ => q entry') contents = true ->
  forall f, In f (regularFiles contents) -> Forall (fun s => q s = true) (fst f).
Proof.
  intro q.
  assert (E : forall n e, q e = true ->
                everyEntry (fun entry' _ => q entry') n = true ->
                forall f, In f (regularFilesEntry e n) ->
                  Forall (fun s => q s = true) (fst f)).
  { induction n as [b|contents IH|] using Node_tree_ind; intros e He H f Hin.
    - destruct Hin as [<-|[]]. simpl. repeat constructor; exact He.
    - rewrite regularFilesEntry_Directory in Hin. rewrite everyEntry_Directory in H.
      apply in_map_iff in Hin. destruct Hin as [g [<- Hg]]. simpl.
      constructor; [exact He|].
      clear e He. induction IH as [|[e c] contents Hc _ IHc]; [contradiction|].
      simpl in *. split_entry H H1 H2 H3.
      apply in_app_or in Hg. destruct Hg as [Hg|Hg].
      + apply (Hc e H1 H2 g Hg).
      + apply (IHc H3 Hg).
    - contradiction. }
  induction contents as [|[e c] contents IH]; intros H f Hin; [contradiction|].
  simpl in *. split_entry H H1 H2 H3.
  apply in_app_or in Hin. destruct Hin as [Hin|Hin].
  - apply (E c e H1 H2 f Hin).
  - apply (IH H3 f Hin).
Qed.

(** The relative path of a regular file is a non-empty list of segments. *)
Lemma regularFiles_segments : forall contents,
  segmentNames contents = true ->
  forall f, In f (regularFiles contents) ->
    fst f <> [] /\ Forall (fun s => segment s = true) (fst f).
Proof.
  intros contents H f Hin. split.
  - exact (regularFiles_not_nil contents f Hin).
  - exact (regularFiles_names segment contents H f Hin).
Qed.

Lemma Forall_segment_snoc : forall ps e,
  Forall (fun s => segment s = true) ps -> segment e = true ->
  Forall (fun s => segment s = true) (ps ++ [e]).
Proof.
  intros ps e Hps He. apply Forall_app. split; [exact Hps | repeat constructor; exact He].
Qed.

(** The step from the entries of a directory to the directory. *)
Lemma visits_layout_entries : forall contents,
  Forall (fun ec =>
            forall e directory ps,
              Forall (fun s => segment s = true) ps -> segment e = true ->
              everyEntry (fun entry' _ => segment entry') (snd ec) = true ->
              map (fun v => (entry v, pathnameRoute v, bytes v))
                  (visitsEntry e (snd ec) directory (absolute ps))
              = map (fun f => (last (fst f) "", absolute (ps ++ fst f), snd f))
                    (regularFilesEntry e (snd ec))) contents ->
  forall directory ps,
    Forall (fun s => segment s = true) ps -> segmentNames contents = true ->
    map (fun v => (entry v, pathnameRoute v, bytes v))
        (visits contents directory (absolute ps))
    = map (fun f => (last (fst f) "", absolute (ps ++ fst f), snd f))
          (regularFiles contents).
Proof.
  intros contents IH directory ps Hps. unfold segmentNames.
  induction IH as [|[e c] contents Hc _ IHc]; intro H; [reflexivity|].
  simpl in *. split_entry H H1 H2 H3.
  rewrite !map_app, (Hc e directory ps Hps H1 H2), (IHc H3). reflexivity.
Qed.

Lemma visitsEntry_layout : forall dirEntry e directory ps,
  Forall (fun s => segment s = true) ps -> segment e = true ->
  everyEntry (fun entry' _ => segment entry') dirEntry = true ->
  map (fun v => (entry v, pathnameRoute v, bytes v))
      (visitsEntry e dirEntry directory (absolute ps))
  = map (fun f => (last (fst f) "", absolute (ps ++ fst f), snd f))
        (regularFilesEntry e dirEntry).
Proof.
  induction dirEntry as [b|contents IH|] using Node_tree_ind;
    intros e directory ps Hps He H.
  - simpl. rewrite join_absolute_segment by assumption. reflexivity.
  - rewrite visitsEntry_Directory, regularFilesEntry_Directory.
    rewrite everyEntry_Directory in H.
    rewrite join_absolute_segment by assumption.
    rewrite (visits_layout_entries contents IH _ (ps ++ [e]));
      [|apply Forall_segment_snoc; assumption|exact H].
    rewrite map_map. apply map_ext_in. intros f Hin. simpl.
    destruct (regularFiles_segments contents H f Hin) as [Hne _].
    rewrite <- app_assoc. simpl.
    destruct (fst f) as [|x rel]; [contradiction | reflexivity].
  - reflexivity.
Qed.

(** The walk over a tree whose names are segments, under a rooted route
    prefix: each regular file is met once, under its own name, with the route
    path made of the prefix and the file's relative path. *)
Lemma visits_layout : forall contents directory ps,
  Forall (fun s => segment s = true) ps -> segmentNames contents = true ->
  map (fun v => (entry v, pathnameRoute v, bytes v))
      (visits contents directory (absolute ps))
  = map (fun f => (last (fst f) "", absolute (ps ++ fst f), snd f))
        (regularFiles contents).
Proof.
  intros contents. apply visits_layout_entries.
  apply Forall_forall. intros ec _ e directory ps. apply visitsEntry_layout.
Qed.

(** The path handed to [get] for a file, from its name and route path. *)
Lemma routeOf_specRoute : forall v ps rel,
  entry v = last rel "" -> pathnameRoute v = absolute (ps ++ rel) ->
  rel <> [] ->
  Forall (fun s => segment s = true) ps -> Forall (fun s => segment s = true) rel ->
  routeOf v = specRoute ps rel.
Proof.
  intros v ps rel He Hr Hne Hps Hrel.
  unfold routeOf, specRoute, target. rewrite index_html_test, He, Hr. f_equal.
  destruct (last rel "" =? "index.html"); [|reflexivity].
  rewrite (app_removelast_last "" Hne) at 1.
  rewrite (app_removelast_last "" Hne) in Hrel.
  apply Forall_app in Hrel. destruct Hrel as [Hinit Hlast].
  inversion Hlast; subst.
  rewrite app_assoc. apply join_absolute_parent; [|assumption].
  apply Forall_app. split; assumption.
Qed.

Lemma visits_routes : forall contents directory ps,
  Forall (fun s => segment s = true) ps -> segmentNames contents = true ->
  map routeOf (visits contents directory (absolute ps))
  = map (fun f => specRoute ps (fst f)) (regularFiles contents).
Proof.
  intros contents directory ps Hps H.
  pose proof (visits_layout contents directory ps Hps H) as L.
  pose proof (regularFiles_segments contents H) as S.
  revert L S.
  generalize (visits contents directory (absolute ps)) as vs.
  generalize (regularFiles contents) as fs.
  induction fs as [|f fs IH]; intros [|v vs] L S; try discriminate; [reflexivity|].
  simpl in L. injection L as He Hr _ L.
  destruct (S f (or_introl eq_refl)) as [Hne Hseg].
  simpl. rewrite (routeOf_specRoute v ps (fst f) He Hr Hne Hps Hseg).
  rewrite (IH vs L); [reflexivity|]. intros g Hg. apply S. right. exact Hg.
Qed.

(** ** Distinct files get distinct route paths. *)

Lemma target_cons : forall e rel, rel <> [] -> target (e :: rel) = e :: target rel.
Proof.
  intros e [|x rel] H; [contradiction|]. unfold target.
  change (last (e :: x :: rel) "") with (last (x :: rel) "").
  change (removelast (e :: x :: rel)) with (e :: removelast (x :: rel)).
  destruct (last (x :: rel) "" =? "index.html"); reflexivity.
Qed.

(** A target under an entry starts with the entry's name, unless the entry is
    itself a file named [index.html]. *)
Lemma target_entry_shape : forall e n f,
  In f (regularFilesEntry e n) ->
  (target (fst f) = [] /\ e = "index.html") \/ exists t, target (fst f) = e :: t.
Proof.
  intros e [b|contents|] f Hin.
  - destruct Hin as [<-|[]]. unfold target. simpl.
    destruct (String.eqb_spec e "index.html"); [left; auto | right; eauto].
  - rewrite regularFilesEntry_Directory in Hin. apply in_map_iff in Hin.
    destruct Hin as [g [<- Hg]]. right. simpl.
    rewrite target_cons by exact (regularFiles_not_nil contents g Hg). eauto.
  - contradiction.
Qed.

Lemma NoDup_map_cons : forall (e : string) (l : list (list string)),
  NoDup l -> NoDup (map (cons e) l).
Proof.
  intros e l H. apply NoDup_map_NoDup_ForallPairs; [|exact H].
  intros a b _ _ E. injection E. auto.
Qed.

Lemma later_distinct : forall e (rest : list (string * Node)),
  negb (existsb (String.eqb e) (map fst rest)) = true ->
  forall e' n, In (e', n) rest -> e <> e'.
Proof.
  intros e rest H e' n Hin ->. apply negb_true_iff in H.
  assert (T : existsb (String.eqb e') (map fst rest) = true).
  { apply existsb_exists. exists e'. split; [|apply String.eqb_refl].
    apply in_map_iff. exists (e', n). auto. }
  congruence.
Qed.

(** The step from the entries of a directory to the directory. *)
Lemma targets_NoDup_entries : forall (p : string -> list string -> bool) contents,
  (forall e later, p e later = true -> negb (existsb (String.eqb e) later) = true) ->
  Forall (fun ec => everyEntry p (snd ec) = true ->
                    forall e, NoDup (map (fun f => target (fst f))
                                         (regularFilesEntry e (snd ec)))) contents ->
  everyName p contents = true ->
  NoDup (map (fun f => target (fst f)) (regularFiles contents)).
Proof.
  intros p contents Hp IH.
  induction IH as [|[e c] contents Hc _ IHc]; intro H; [constructor|].
  simpl in *. split_entry H H1 H2 H3.
  rewrite map_app. apply NoDup_app; [apply (Hc H2) | apply (IHc H3) |].
  intros x Hx Hy.
  apply in_map_iff in Hx. destruct Hx as [f [<- Hf]].
  apply in_map_iff in Hy. destruct Hy as [g [Eg Hg]].
  destruct (regularFiles_entry contents g Hg) as [e' [n' [Hin' Hg']]].
  pose proof (later_distinct e contents (Hp _ _ H1) e' n' Hin') as Hne.
  destruct (target_entry_shape e c f Hf) as [[Tf Ef]|[t Tf]];
    destruct (target_entry_shape e' n' g Hg') as [[Tg Eg']|[t' Tg]];
    rewrite Tf, Tg in Eg; try discriminate.
  - congruence.
  - injection Eg as E _. congruence.
Qed.

Lemma targetsEntry_NoDup : forall (p : string -> list string -> bool),
  (forall e later, p e later = true -> negb (existsb (String.eqb e) later) = true) ->
  forall n, everyEntry p n = true ->
    forall e, NoDup (map (fun f => target (fst f)) (regularFilesEntry e n)).
Proof.
  intros p Hp. induction n as [b|contents IH|] using Node_tree_ind; intros H e.
  - simpl. constructor; [intros [] | constructor].
  - rewrite regularFilesEntry_Directory, map_map. rewrite everyEntry_Directory in H.
    rewrite (map_ext_in _ (fun f => e :: target (fst f))).
    + rewrite <- (map_map (fun f => target (fst f)) (cons e)).
      apply NoDup_map_cons. exact (targets_NoDup_entries p contents Hp IH H).
    + intros f Hin. simpl. apply target_cons, (regularFiles_not_nil contents f Hin).
  - constructor.
Qed.

(** In a tree where no directory lists a name twice, no two regular files
    have the same target. *)
Lemma targets_NoDup : forall contents,
  wellFormed contents = true ->
  NoDup (map (fun f => target (fst f)) (regularFiles contents)).
Proof.
  intros contents H.
  assert (Hp : forall e later,
             portable e && negb (existsb (String.eqb e) later) = true ->
             negb (existsb (String.eqb e) later) = true)
    by (intros e later E; apply andb_true_iff in E; tauto).
  apply (targets_NoDup_entries _ contents Hp); [|exact H].
  apply Forall_forall. intros ec _ Hec. apply (targetsEntry_NoDup _ Hp), Hec.
Qed.

Lemma includes_append : forall c s t,
  Js.includes c (s +++ t) = Js.includes c s || Js.includes c t.
Proof.
  induction s as [|a s IH]; intro t; simpl; [reflexivity|].
  rewrite IH, orb_assoc. reflexivity.
Qed.

Lemma includes_join : forall c sep l,
  Js.includes c sep = false ->
  Forall (fun s => Js.includes c s = false) l ->
  Js.includes c (Js.join sep l) = false.
Proof.
  intros c sep l Hsep H. induction H as [|x l Hx Hl IH]; [reflexivity|].
  destruct l as [|y l]; [exact Hx|].
  change (Js.join sep (x :: y :: l)) with (x +++ sep +++ Js.join sep (y :: l)).
  rewrite !includes_append, Hx, Hsep, IH. reflexivity.
Qed.

Lemma replaceAll_clean : forall a b s,
  Js.includes a s = false -> Js.replaceAll a b s = s.
Proof.
  induction s as [|c s IH]; simpl; intro H; [reflexivity|].
  apply orb_false_iff in H. destruct H as [Hc Hs].
  rewrite Hc, (IH Hs). reflexivity.
Qed.

Lemma portable_spec : forall s,
  portable s = true <-> segment s = true /\ Js.includes "\"%char s = false.
Proof.
  intro s. unfold portable. rewrite andb_true_iff, negb_true_iff. tauto.
Qed.

Lemma portable_segments : forall l,
  Forall (fun s => portable s = true) l -> Forall (fun s => segment s = true) l.
Proof.
  intros l H. eapply Forall_impl; [|exact H].
  intros s Hs. apply portable_spec in Hs. tauto.
Qed.

(** On portable segments nothing is replaced. *)
Lemma replaceAll_absolute : forall l,
  Forall (fun s => portable s = true) l ->
  Js.replaceAll "\"%char "/"%char (absolute l) = absolute l.
Proof.
  intros l H. apply replaceAll_clean. unfold absolute.
  rewrite includes_append. simpl. apply includes_join; [reflexivity|].
  eapply Forall_impl; [|exact H]. intros s Hs. apply portable_spec in Hs. tauto.
Qed.

Lemma absolute_inj : forall l1 l2,
  Forall (fun s => segment s = true) l1 -> Forall (fun s => segment s = true) l2 ->
  absolute l1 = absolute l2 -> l1 = l2.
Proof.
  intros l1 l2 H1 H2 E. unfold absolute in E. injection E as E.
  assert (N : forall l, Forall (fun s => segment s = true) l ->
                Forall (fun s => s <> "") l).
  { intros l H. eapply Forall_impl; [|exact H].
    intros s Hs. apply segment_spec in Hs. tauto. }
  destruct l1 as [|x1 l1], l2 as [|x2 l2]; [reflexivity| | |].
  - exfalso. symmetry in E. revert E. apply join_not_empty; [discriminate | apply N, H2].
  - exfalso. revert E. apply join_not_empty; [discriminate | apply N, H1].
  - rewrite <- (split_join "/"%char (x1 :: l1)), <- (split_join "/"%char (x2 :: l2));
      try discriminate; try (apply segments_no_sep; assumption).
    rewrite E. reflexivity.
Qed.

Lemma Forall_target : forall (P : string -> Prop) rel,
  Forall P rel -> Forall P (target rel).
Proof.
  intros P rel H. unfold target.
  destruct (last rel "" =? "index.html"); [|exact H].
  destruct rel as [|x rel]; [exact H|].
  rewrite (app_removelast_last "" (l := x :: rel)) in H by discriminate.
  apply Forall_app in H. tauto.
Qed.

(** In a well-formed tree under a portable prefix, no two regular files have
    the same route path. *)
Lemma specRoutes_NoDup : forall contents ps,
  Forall (fun s => portable s = true) ps -> wellFormed contents = true ->
  NoDup (map (fun f => specRoute ps (fst f)) (regularFiles contents)).
Proof.
  intros contents ps Hps H. unfold specRoute.
  rewrite <- (map_map (fun f => target (fst f))
                      (fun t => Js.replaceAll "\"%char "/"%char (absolute (ps ++ t)))).
  apply NoDup_map_NoDup_ForallPairs; [|apply targets_NoDup, H].
  assert (Hq : everyName (fun entry' _ => portable entry') contents = true).
  { revert H. apply everyName_weaken. intros e later E.
    apply andb_true_iff in E. tauto. }
  assert (T : forall t, In t (map (fun f => target (fst f)) (regularFiles contents)) ->
                Forall (fun s => portable s = true) (ps ++ t)).
  { intros t Ht. apply in_map_iff in Ht. destruct Ht as [f [<- Hf]].
    apply Forall_app. split; [exact Hps|].
    apply Forall_target, (regularFiles_names portable contents Hq f Hf). }
  intros t1 t2 H1 H2 E.
  rewrite !replaceAll_absolute in E by (apply T; assumption).
  apply absolute_inj in E; try (apply portable_segments, T; assumption).
  exact (app_inv_head _ _ _ E).
Qed.

(** ** When the whole walk is accepted. *)

Lemma Conflicting_push_GET : forall p rs q l,
  Conflicting p "GET" (rs ++ [mkRoute q "GET" l]) <-> Conflicting p "GET" rs \/ q = p.
Proof.
  intros p rs q l. unfold Conflicting. split.
  - intros [r [Hin [Hp Hm]]]. apply in_app_or in Hin. destruct Hin as [Hin|[<-|[]]].
    + left. exists r. auto.
    + right. exact Hp.
  - intros [[r [Hin H]]| ->].
    + exists r. split; [apply in_or_app; left; exact Hin | exact H].
    + exists (mkRoute p "GET" l). split; [apply in_or_app; right; left; reflexivity|].
      simpl. auto.
Qed.

(** Visits with distinct paths, none of them taken in the table: every [get]
    is accepted, and the table gains their routes in order. *)
Lemma projectAll_accepts : forall closure vs this,
  NoDup (map routeOf vs) ->
  (forall v, In v vs -> ~ Conflicting (routeOf v) "GET" (routes this)) ->
  projectAll closure vs this
  = (Normal, mkShell (routes this ++ map (routeFor closure) vs) (middleware this)).
Proof.
  intros closure. induction vs as [|v vs IH]; intros this Hd Hfree.
  - simpl. rewrite app_nil_r. destruct this; reflexivity.
  - simpl. rewrite projectFile_get.
    destruct (register_cases ByGet (routeOf v) (callback (routeFor closure v)) this)
      as [[Hc _]|[_ E]]; [exfalso; apply (Hfree v); [left; reflexivity | exact Hc]|].
    cbn [register methodOf] in E. rewrite E.
    inversion Hd as [|? ? Hnotin Hd']; subst.
    rewrite IH; [simpl; rewrite <- app_assoc; reflexivity | exact Hd' |].
    intros v' Hin' Hc. simpl in Hc. apply Conflicting_push_GET in Hc.
    destruct Hc as [Hc|Hc].
    + apply (Hfree v'); [right; exact Hin' | exact Hc].
    + apply Hnotin. rewrite Hc. apply in_map, Hin'.
Qed.


(** The projection of a well-formed tree under a portable prefix, into a
    table that holds none of the paths for [GET] or [ANY]: every regular file
    gets its route, in walk order, at the path the specification gives. *)
Lemma project_layout : forall closure contents directory ps this,
  Forall (fun s => portable s = true) ps ->
  wellFormed contents = true ->
  (forall f, In f (regularFiles contents) ->
     ~ Conflicting (specRoute ps (fst f)) "GET" (routes this)) ->
  project closure contents directory (absolute ps) this
  = (Normal,
     mkShell (routes this
              ++ map (routeFor closure) (visits contents directory (absolute ps)))
             (middleware this))
  /\ map (fun r => (path r, method r))
         (map (routeFor closure) (visits contents directory (absolute ps)))
     = map (fun f => (specRoute ps (fst f), "GET")) (regularFiles contents).
Proof.
  intros closure contents directory ps this Hps H Hfree.
  pose proof (visits_routes contents directory ps (portable_segments ps Hps)
                (wellFormed_segmentNames contents H)) as R.
  split.
  - rewrite project_visits. apply projectAll_accepts.
    + rewrite R. apply specRoutes_NoDup; assumption.
    + intros v Hin.
      assert (Hr : In (routeOf v) (map routeOf (visits contents directory (absolute ps))))
        by (apply in_map, Hin).
      rewrite R in Hr. apply in_map_iff in Hr. destruct Hr as [f [<- Hf]].
      apply Hfree, Hf.
  - rewrite map_map. simpl.
    rewrite <- (map_map routeOf (fun p => (p, "GET"))), R, map_map. reflexivity.
Qed.

(** ** What the registered closures answer. *)

Lemma runCallback_StaticTs : forall decode disk extension contents,
  runCallback decode disk (StaticTs extension contents)
  = (map ConsoleLog (snd (MIMEFromExt extension))
       ++ [WriteHead 200 [("Content-Type", Text (fst (MIMEFromExt extension)))];
           End_ contents], Normal).
Proof.
  intros decode disk extension contents. simpl.
  destruct (MIMEFromExt extension) as [mime lines]. reflexivity.
Qed.

Lemma runCallback_Static : forall decode disk extension contents,
  runCallback decode disk (Static extension contents)
  = (map ConsoleLog (snd (MIMEFromExt extension))
       ++ [WriteHead 200 [("Content-Type", Text (fst (MIMEFromExt extension)));
                          ("Content-Length", Number (String.length contents))];
           End_ contents], Normal).
Proof.
  intros decode disk extension contents. simpl.
  destruct (MIMEFromExt extension) as [mime lines]. reflexivity.
Qed.

Lemma runCallback_Dynamic : forall decode (disk : Disk) extension pathname,
  match disk pathname with
  | Some bytes' =>
      runCallback decode disk (Dynamic extension pathname)
      = (map ConsoleLog (snd (MIMEFromExt extension))
           ++ [WriteHead 200 [("Content-Type", Text (fst (MIMEFromExt extension)));
                              ("Content-Length", Number (String.length (decode bytes')))];
               End_ (decode bytes')], Normal)
  | None =>
      runCallback decode disk (Dynamic extension pathname)
      = ([], Throw (FilesystemError pathname))
  end.
Proof.
  intros decode disk extension pathname. simpl.
  destruct (disk pathname) as [b|]; [|reflexivity].
  destruct (MIMEFromExt extension) as [mime lines]. reflexivity.
Qed.

(** With exactly one matching route, the loop is one call of its callback. *)
Lemma forRoutes_single : forall decode disk req r rs found,
  filter (matches req) rs = [r] ->
  forRoutes decode disk req rs found
  = invoke decode disk req r ([], (Normal, true)).
Proof.
  intros decode disk req r. induction rs as [|a rs IH]; intros found H; [discriminate|].
  rewrite forRoutes_cons. simpl in H. destruct (matches req a) eqn:E.
  - injection H as -> H. rewrite forRoutes_none; [reflexivity|].
    intros r' Hin. destruct (matches req r') eqn:E'; [|reflexivity].
    assert (Hf : In r' (filter (matches req) rs)) by (apply filter_In; auto).
    rewrite H in Hf. contradiction.
  - apply IH, H.
Qed.

(** In a table free of conflicts, a request for the path and method of a
    route runs the middleware, then that route's callback, and nothing else. *)
Lemma requestListener_single : forall decode this disk r,
  conflictFree (routes this) -> In r (routes this) ->
  requestListener decode this disk (Req.make (path r) (method r))
  = (MiddlewareCalled (middleware this) (Req.make (path r) (method r))
       :: CallbackCalled r (Req.make (path r) (method r))
       :: fst (runCallback decode disk (callback r)),
     snd (runCallback decode disk (callback r))).
Proof.
  intros decode this disk r Hfree Hin.
  assert (Hm : matches (Req.make (path r) (method r)) r = true)
    by (apply matches_spec; split; simpl; auto).
  assert (F : filter (matches (Req.make (path r) (method r))) (routes this) = [r]).
  { pose proof (conflictFree_one_match (Req.make (path r) (method r)) (routes this) Hfree) as L.
    assert (Hf : In r (filter (matches (Req.make (path r) (method r))) (routes this)))
      by (apply filter_In; auto).
    destruct (filter _ (routes this)) as [|x [|y l]]; simpl in *;
      [contradiction | destruct Hf as [->|[]]; reflexivity | lia]. }
  unfold requestListener. rewrite (forRoutes_single _ _ _ r _ _ F). unfold invoke.
  destruct (runCallback decode disk (callback r)) as [events [|e]]; simpl;
    rewrite ?app_nil_r; reflexivity.
Qed.


(** The routes a projection has pushed are those of the first regular files
    of the walk, as many as the table has grown by. *)
Lemma project_pushed : forall closure contents directory route this k v,
  nth_error (visits contents directory route) k = Some v ->
  k < length (routes (snd (project closure contents directory route this)))
      - length (routes this) ->
  In (routeFor closure v)
     (routes (snd (project closure contents directory route this))).
Proof.
  intros closure contents directory route this k v Hk Hlt.
  rewrite project_visits in *.
  destruct (projectAll_routes closure (visits contents directory route) this)
    as [n [E _]].
  rewrite E in *. simpl in *. rewrite length_app, length_map, length_firstn in Hlt.
  apply in_or_app. right. apply in_map.
  apply (nth_error_In _ k). rewrite nth_error_firstn.
  assert (Hn : Nat.ltb k n = true) by (apply Nat.ltb_lt; lia).
  rewrite Hn. exact Hk.
Qed.

(** A projection that returns normally has pushed a route for every regular
    file of the walk. *)
Lemma project_Normal_pushed : forall closure contents directory route this,
  fst (project closure contents directory route this) = Normal ->
  length (routes (snd (project closure contents directory route this)))
  - length (routes this)
  = length (visits contents directory route).
Proof.
  intros closure contents directory route this N.
  rewrite project_visits in *.
  destruct (projectAll_routes closure (visits contents directory route) this)
    as [n [E A]].
  rewrite E. simpl. rewrite (A N), length_app, length_map. lia.
Qed.

(** C8. Take the regular file the walk meets in place [k], and a projection
    that got as far as pushing its route (as it has for every file when it
    returned normally).  After [useStatic], every request for the file's
    route path is answered with the text decoded from the bytes the walk
    read, whatever the disk holds when the request comes.  After
    [useDynamic], the path name of the file is read again at each request:
    the answer is the text decoded from what the disk holds then, and the
    listener throws when that read fails. *)
Theorem eager_keeps_lazy_rereads : forall decode contents directory route before k v,
  reachable decode before ->
  nth_error (visits contents directory route) k = Some v ->
  (k < length (routes (snd (Ts.useStatic decode contents directory route before)))
       - length (routes before) ->
   forall disk,
     requestListener decode (snd (Ts.useStatic decode contents directory route before))
       disk (Req.make (routeOf v) "GET")
     = (MiddlewareCalled (middleware before) (Req.make (routeOf v) "GET")
          :: CallbackCalled
               (mkRoute (routeOf v) "GET"
                  (StaticTs (extensionOf (entry v)) (decode (bytes v))))
               (Req.make (routeOf v) "GET")
          :: map ConsoleLog (snd (MIMEFromExt (extensionOf (entry v))))
          ++ [WriteHead 200
                [("Content-Type", Text (fst (MIMEFromExt (extensionOf (entry v)))))];
              End_ (decode (bytes v))], Normal))
  /\ (k < length (routes (snd (Dist.useStatic decode contents directory route before)))
          - length (routes before) ->
      forall disk,
        requestListener decode (snd (Dist.useStatic decode contents directory route before))
          disk (Req.make (routeOf v) "GET")
        = (MiddlewareCalled (middleware before) (Req.make (routeOf v) "GET")
             :: CallbackCalled
                  (mkRoute (routeOf v) "GET"
                     (Static (extensionOf (entry v)) (decode (bytes v))))
                  (Req.make (routeOf v) "GET")
             :: map ConsoleLog (snd (MIMEFromExt (extensionOf (entry v))))
             ++ [WriteHead 200
                   [("Content-Type", Text (fst (MIMEFromExt (extensionOf (entry v)))));
                    ("Content-Length", Number (String.length (decode (bytes v))))];
                 End_ (decode (bytes v))], Normal))
  /\ (k < length (routes (snd (Dist.useDynamic contents directory route before)))
          - length (routes before) ->
      forall disk : Disk,
        match disk (pathnameDir v) with
        | Some now =>
            requestListener decode (snd (Dist.useDynamic contents directory route before))
              disk (Req.make (routeOf v) "GET")
            = (MiddlewareCalled (middleware before) (Req.make (routeOf v) "GET")
                 :: CallbackCalled
                      (mkRoute (routeOf v) "GET"
                         (Dynamic (extensionOf (entry v)) (pathnameDir v)))
                      (Req.make (routeOf v) "GET")
                 :: map ConsoleLog (snd (MIMEFromExt (extensionOf (entry v))))
                 ++ [WriteHead 200
                       [("Content-Type", Text (fst (MIMEFromExt (extensionOf (entry v)))));
                        ("Content-Length", Number (String.length (decode now)))];
                     End_ (decode now)], Normal)
        | None =>
            requestListener decode (snd (Dist.useDynamic contents directory route before))
              disk (Req.make (routeOf v) "GET")
            = ([MiddlewareCalled (middleware before) (Req.make (routeOf v) "GET");
                CallbackCalled
                  (mkRoute (routeOf v) "GET"
                     (Dynamic (extensionOf (entry v)) (pathnameDir v)))
                  (Req.make (routeOf v) "GET")],
               Throw (FilesystemError (pathnameDir v)))
        end)
  /\ (fst (Ts.useStatic decode contents directory route before) = Normal ->
      k < length (routes (snd (Ts.useStatic decode contents directory route before)))
          - length (routes before))
  /\ (fst (Dist.useStatic decode contents directory route before) = Normal ->
      k < length (routes (snd (Dist.useStatic decode contents directory route before)))
          - length (routes before))
  /\ (fst (Dist.useDynamic contents directory route before) = Normal ->
      k < length (routes (snd (Dist.useDynamic contents directory route before)))
          - length (routes before)).
Proof.
  intros decode contents directory route before k v Hreach Hk.
  assert (M : forall closure,
             middleware (snd (project closure contents directory route before))
             = middleware before).
  { intro closure. rewrite project_visits.
    destruct (projectAll_routes closure (visits contents directory route) before)
      as [n [-> _]]. reflexivity. }
  assert (Hlen : k < length (visits contents directory route))
    by (apply nth_error_Some; rewrite Hk; discriminate).
  split; [|split; [|split; [|split; [|split]]]].
  - intros Hlt disk.
    pose proof (project_pushed _ contents directory route before k v Hk Hlt) as Hin.
    pose proof (reachable_conflictFree decode _
                  (reachable_call decode (CallUseStaticTs contents directory route)
                     before Hreach)) as Hfree.
    pose proof (requestListener_single decode
                  (snd (Ts.useStatic decode contents directory route before))
                  disk _ Hfree Hin) as E.
    cbn [routeFor path method callback] in E. rewrite E, runCallback_StaticTs.
    unfold Ts.useStatic. rewrite M. reflexivity.
  - intros Hlt disk.
    pose proof (project_pushed _ contents directory route before k v Hk Hlt) as Hin.
    pose proof (reachable_conflictFree decode _
                  (reachable_call decode (CallUseStatic contents directory route)
                     before Hreach)) as Hfree.
    pose proof (requestListener_single decode
                  (snd (Dist.useStatic decode contents directory route before))
                  disk _ Hfree Hin) as E.
    cbn [routeFor path method callback] in E. rewrite E, runCallback_Static.
    unfold Dist.useStatic. rewrite M. reflexivity.
  - intros Hlt disk.
    pose proof (project_pushed _ contents directory route before k v Hk Hlt) as Hin.
    pose proof (reachable_conflictFree decode _
                  (reachable_call decode (CallUseDynamic contents directory route)
                     before Hreach)) as Hfree.
    pose proof (requestListener_single decode
                  (snd (Dist.useDynamic contents directory route before))
                  disk _ Hfree Hin) as E.
    cbn [routeFor path method callback] in E.
    pose proof (runCallback_Dynamic decode disk (extensionOf (entry v)) (pathnameDir v)) as R.
    destruct (disk (pathnameDir v)) as [now|];
      rewrite E, R; unfold Dist.useDynamic; rewrite M; reflexivity.
  - intro N. unfold Ts.useStatic in *. rewrite project_Normal_pushed by exact N. exact Hlen.
  - intro N. unfold Dist.useStatic in *. rewrite project_Normal_pushed by exact N. exact Hlen.
  - intro N. unfold Dist.useDynamic in *. rewrite project_Normal_pushed by exact N. exact Hlen.
Qed.

Lemma eager_keeps_lazy_rereads_witness :
  reachable decodeAscii newShell
  /\ nth_error (visits exampleRoot "/root" "/assets") 2 = Some exampleVisit
  /\ requestListener decodeAscii
       (snd (Ts.useStatic decodeAscii exampleRoot "/root" "/assets" newShell))
       editedDisk (Req.make "/assets/sub" "GET")
     = ([MiddlewareCalled NoOp (Req.make "/assets/sub" "GET");
         CallbackCalled (mkRoute "/assets/sub" "GET" (StaticTs "html" "<html></html>"))
                        (Req.make "/assets/sub" "GET");
         WriteHead 200 [("Content-Type", Text "text/html")];
         End_ "<html></html>"], Normal)
  /\ requestListener decodeAscii
       (snd (Dist.useStatic decodeAscii exampleRoot "/root" "/assets" newShell))
       editedDisk (Req.make "/assets/sub" "GET")
     = ([MiddlewareCalled NoOp (Req.make "/assets/sub" "GET");
         CallbackCalled (mkRoute "/assets/sub" "GET" (Static "html" "<html></html>"))
                        (Req.make "/assets/sub" "GET");
         WriteHead 200 [("Content-Type", Text "text/html");
                        ("Content-Length", Number 13)];
         End_ "<html></html>"], Normal)
  /\ requestListener decodeAscii
       (snd (Dist.useDynamic exampleRoot "/root" "/assets" newShell))
       editedDisk (Req.make "/assets/sub" "GET")
     = ([MiddlewareCalled NoOp (Req.make "/assets/sub" "GET");
         CallbackCalled (mkRoute "/assets/sub" "GET" (Dynamic "html" "/root/sub/index.html"))
                        (Req.make "/assets/sub" "GET");
         WriteHead 200 [("Content-Type", Text "text/html");
                        ("Content-Length", Number 13)];
         End_ "<p>edited</p>"], Normal).
Proof.
  assert (Hv : nth_error (visits exampleRoot "/root" "/assets") 2 = Some exampleVisit)
    by reflexivity.
  destruct (eager_keeps_lazy_rereads decodeAscii exampleRoot "/root" "/assets" newShell
              2 exampleVisit (reachable_new decodeAscii) Hv)
    as [HTs [Eager [Lazy [NTs [NEager NLazy]]]]].
  split; [apply reachable_new|]. split; [exact Hv|]. split; [|split].
  - exact (HTs (NTs eq_refl) editedDisk).
  - exact (Eager (NEager eq_refl) editedDisk).
  - exact (Lazy (NLazy eq_refl) editedDisk).
Defined.

(** C7, on the code as it is.  The closure [useStatic] registers in the
    TypeScript source writes status 200 and [Content-Type] only: for
    [/root/a.txt] holding "hello" no [Content-Length] is written, where the
    [useStatic] of [dist/index.js] writes [Content-Length: 5]; and no closure
    of the TypeScript projection ever writes more than the one header. *)
Theorem ts_useStatic_omits_content_length :
  requestListener decodeAscii
    (snd (Ts.useStatic decodeAscii exampleRoot "/root" "/assets" newShell))
    (fun _ => None) (Req.make "/assets/a.txt" "GET")
  = ([MiddlewareCalled NoOp (Req.make "/assets/a.txt" "GET");
      CallbackCalled (mkRoute "/assets/a.txt" "GET" (StaticTs "txt" "hello"))
                     (Req.make "/assets/a.txt" "GET");
      WriteHead 200 [("Content-Type", Text "text/plain")];
      End_ "hello"], Normal)
  /\ requestListener decodeAscii
       (snd (Dist.useStatic decodeAscii exampleRoot "/root" "/assets" newShell))
       (fun _ => None) (Req.make "/assets/a.txt" "GET")
     = ([MiddlewareCalled NoOp (Req.make "/assets/a.txt" "GET");
         CallbackCalled (mkRoute "/assets/a.txt" "GET" (Static "txt" "hello"))
                        (Req.make "/assets/a.txt" "GET");
         WriteHead 200 [("Content-Type", Text "text/plain");
                        ("Content-Length", Number 5)];
         End_ "hello"], Normal)
  /\ (forall decode disk extension contents,
        runCallback decode disk (StaticTs extension contents)
        = (map ConsoleLog (snd (MIMEFromExt extension))
             ++ [WriteHead 200 [("Content-Type", Text (fst (MIMEFromExt extension)))];
                 End_ contents], Normal)).
Proof.
  split; [reflexivity|]. split; [reflexivity|]. apply runCallback_StaticTs.
Qed.




(** * Further properties of the code. *)

(** ** Setup sequences. *)

Lemma conflicts_sym : forall a b, conflicts a b = conflicts b a.
Proof.
  intros a b. unfold conflicts, conflict.
  rewrite (String.eqb_sym (path a)), (String.eqb_sym (method a) (method b)).
  destruct (path b =? path a), (method b =? method a),
    (method a =? "ANY"), (method b =? "ANY"); reflexivity.
Qed.

(** What every registration method and [use] preserve, every call preserves. *)
Lemma perform_preserves : forall P : ServerShell -> Prop,
  (forall op p l s, P s -> P (snd (register op p l s))) ->
  (forall f s, P s -> P (use f s)) ->
  forall decode c s, P s -> P (snd (perform decode c s)).
Proof.
  intros P Hreg Huse decode c s H.
  assert (G : forall p l t, P t -> P (snd (get p l t)))
    by (intros p l t; exact (Hreg ByGet p l t)).
  destruct c as [p l|p l|p l|p l|p l|p l|f|cs d r|cs d r|cs d r]; simpl.
  - exact (Hreg ByGet p l s H).
  - exact (Hreg ByPost p l s H).
  - exact (Hreg ByOptions p l s H).
  - exact (Hreg ByPut p l s H).
  - exact (Hreg ByDelete p l s H).
  - exact (Hreg ByAny p l s H).
  - apply Huse, H.
  - unfold Ts.useStatic. rewrite project_visits. apply projectAll_preserves; assumption.
  - unfold Dist.useStatic. rewrite project_visits. apply projectAll_preserves; assumption.
  - unfold Dist.useDynamic. rewrite project_visits. apply projectAll_preserves; assumption.
Qed.

Lemma performAll_preserves : forall P : ServerShell -> Prop,
  (forall op p l s, P s -> P (snd (register op p l s))) ->
  (forall f s, P s -> P (use f s)) ->
  forall decode calls s, P s -> P (performAll decode calls s).
Proof.
  intros P Hreg Huse decode. unfold performAll.
  induction calls as [|c calls IH]; intros s H; [exact H|].
  simpl. apply IH, perform_preserves; assumption.
Qed.

Lemma register_extends : forall op p l s,
  exists added, routes (snd (register op p l s)) = routes s ++ added.
Proof.
  intros op p l s. destruct (register_cases op p l s) as [[_ E]|[_ E]]; rewrite E; simpl.
  - exists []. symmetry. apply app_nil_r.
  - eexists. reflexivity.
Qed.

Lemma performAll_reachable : forall decode calls this,
  reachable decode this -> reachable decode (performAll decode calls this).
Proof.
  intros decode. unfold performAll.
  induction calls as [|c calls IH]; intros this H; [exact H|].
  simpl. apply IH, reachable_call, H.
Qed.

Lemma performAll_extends : forall decode calls this,
  exists added,
    routes (performAll decode calls this) = routes this ++ added.
Proof.
  intros decode calls this.
  apply (performAll_preserves
           (fun s => exists added, routes s = routes this ++ added)).
  - intros op p l s [added E]. destruct (register_extends op p l s) as [more E'].
    exists (added ++ more). rewrite E', E, app_assoc. reflexivity.
  - intros f s H. exact H.
  - exists []. symmetry. apply app_nil_r.
Qed.

Lemma project_middleware : forall closure contents directory route this,
  middleware (snd (project closure contents directory route this)) = middleware this.
Proof.
  intros closure contents directory route this. rewrite project_visits.
  destruct (projectAll_routes closure (visits contents directory route) this)
    as [n [-> _]]. reflexivity.
Qed.

Lemma perform_middleware : forall decode c this,
  middleware (snd (perform decode c this))
  = match c with CallUse f => f | _ => middleware this end.
Proof.
  intros decode c this.
  assert (R : forall op p l, middleware (snd (register op p l this)) = middleware this).
  { intros op p l. destruct (register_cases op p l this) as [[_ E]|[_ E]];
      rewrite E; reflexivity. }
  destruct c as [p l|p l|p l|p l|p l|p l|f|cs d r|cs d r|cs d r]; simpl.
  - exact (R ByGet p l).
  - exact (R ByPost p l).
  - exact (R ByOptions p l).
  - exact (R ByPut p l).
  - exact (R ByDelete p l).
  - exact (R ByAny p l).
  - reflexivity.
  - apply project_middleware.
  - apply project_middleware.
  - apply project_middleware.
Qed.

(** X1. No setup call removes, reorders or alters a route: after any sequence
    of calls the table is the table before followed by what was pushed.  The
    middleware slot holds the argument of the last [use] of the sequence, or
    what it held before when there is none; no other call touches it. *)
Theorem setup_only_appends : forall decode calls this,
  (exists added, routes (performAll decode calls this) = routes this ++ added)
  /\ middleware (performAll decode calls this)
     = fold_left (fun m c => match c with CallUse f => f | _ => m end)
                 calls (middleware this).
Proof.
  intros decode calls this. split; [apply performAll_extends|].
  unfold performAll. revert this.
  induction calls as [|c calls IH]; intro this; [reflexivity|].
  simpl. rewrite IH, perform_middleware. reflexivity.
Qed.

Lemma conflictFree_unique : forall rs a b,
  conflictFree rs -> In a rs -> In b rs -> conflicts a b = true -> a = b.
Proof.
  induction rs as [|x rs IH]; intros a b H Ha Hb C; [contradiction|].
  destruct H as [Hx Hrs]. destruct Ha as [->|Ha], Hb as [->|Hb].
  - reflexivity.
  - rewrite (Hx b Hb) in C. discriminate.
  - rewrite conflicts_sym, (Hx a Ha) in C. discriminate.
  - exact (IH a b Hrs Ha Hb C).
Qed.

(** X2. A route registered in a shell built through the API keeps being
    served whatever is set up afterwards: after any further calls, a request
    for its path and method makes the listener call that route and no other. *)
Theorem registered_route_stays_served : forall decode this r calls disk,
  reachable decode this -> In r (routes this) ->
  called (fst (requestListener decode (performAll decode calls this) disk
                 (Req.make (path r) (method r))))
  = [r].
Proof.
  intros decode this r calls disk Hreach Hin.
  pose proof (reachable_conflictFree decode _
                (performAll_reachable decode calls this Hreach)) as Hfree.
  destruct (performAll_extends decode calls this) as [added E].
  rewrite requestListener_calls_match by exact Hfree.
  pose proof (conflictFree_one_match (Req.make (path r) (method r)) _ Hfree) as L.
  assert (Hf : In r (filter (matches (Req.make (path r) (method r)))
                       (routes (performAll decode calls this)))).
  { apply filter_In. split.
    - rewrite E. apply in_or_app. left. exact Hin.
    - apply matches_spec. split; simpl; auto. }
  destruct (filter _ (routes (performAll decode calls this))) as [|x [|y l]];
    simpl in *; [contradiction | destruct Hf as [->|[]]; reflexivity | lia].
Qed.

Lemma registered_route_stays_served_witness :
  reachable decodeAscii exampleShell
  /\ In (mkRoute "/get" "GET" (Listener 0)) (routes exampleShell)
  /\ called (fst (requestListener decodeAscii
                    (performAll decodeAscii
                       [CallAny "/get" (Listener 9);
                        CallUseDynamic exampleRoot "/root" "/get";
                        CallUse (UserMiddleware 1)] exampleShell)
                    (fun _ => None) (Req.make "/get" "GET")))
     = [mkRoute "/get" "GET" (Listener 0)].
Proof.
  assert (R : reachable decodeAscii exampleShell).
  { unfold exampleShell. repeat apply reachable_call. apply reachable_new. }
  assert (I : In (mkRoute "/get" "GET" (Listener 0)) (routes exampleShell))
    by (vm_compute; auto).
  split; [exact R|]. split; [exact I|].
  exact (registered_route_stays_served decodeAscii exampleShell
           (mkRoute "/get" "GET" (Listener 0))
           [CallAny "/get" (Listener 9);
            CallUseDynamic exampleRoot "/root" "/get";
            CallUse (UserMiddleware 1)] (fun _ => None) R I).
Defined.

(** X3. Once a route with method [ANY] is in a shell built through the API,
    its path is closed: after any further calls it is still the only route at
    that path, and every registration method called on that path throws
    [RouteAlreadyBoundError]. *)
Theorem any_route_owns_path : forall decode this r calls,
  reachable decode this -> In r (routes this) -> method r = "ANY" ->
  (forall r', In r' (routes (performAll decode calls this)) ->
     path r' = path r -> r' = r)
  /\ (forall op l,
        register op (path r) l (performAll decode calls this)
        = (Throw (RouteAlreadyBoundError (path r)), performAll decode calls this)).
Proof.
  intros decode this r calls Hreach Hin Hany.
  pose proof (reachable_conflictFree decode _
                (performAll_reachable decode calls this Hreach)) as Hfree.
  destruct (performAll_extends decode calls this) as [added E].
  assert (Hin' : In r (routes (performAll decode calls this)))
    by (rewrite E; apply in_or_app; left; exact Hin).
  split.
  - intros r' Hr' Hp. symmetry.
    apply (conflictFree_unique _ r r' Hfree Hin' Hr').
    unfold conflicts, conflict. rewrite Hp, String.eqb_refl, Hany. simpl.
    rewrite orb_true_r. reflexivity.
  - intros op l.
    destruct (register_cases op (path r) l (performAll decode calls this))
      as [[_ T]|[N _]]; [exact T|].
    exfalso. apply N. exists r. auto.
Qed.

Lemma any_route_owns_path_witness :
  reachable decodeAscii exampleShell
  /\ In (mkRoute "/all" "ANY" (Listener 1)) (routes exampleShell)
  /\ register ByPost "/all" (Listener 7)
       (performAll decodeAscii [CallGet "/other" (Listener 2)] exampleShell)
     = (Throw (RouteAlreadyBoundError "/all"),
        performAll decodeAscii [CallGet "/other" (Listener 2)] exampleShell).
Proof.
  assert (R : reachable decodeAscii exampleShell).
  { unfold exampleShell. repeat apply reachable_call. apply reachable_new. }
  assert (I : In (mkRoute "/all" "ANY" (Listener 1)) (routes exampleShell))
    by (vm_compute; auto).
  split; [exact R|]. split; [exact I|].
  exact (proj2 (any_route_owns_path decodeAscii exampleShell
                  (mkRoute "/all" "ANY" (Listener 1))
                  [CallGet "/other" (Listener 2)] R I eq_refl)
               ByPost (Listener 7)).
Defined.

Lemma called_matches : forall decode disk req rs found r,
  In r (called (fst (forRoutes decode disk req rs found))) ->
  In r rs /\ matches req r = true.
Proof.
  intros decode disk req rs found r H.
  destruct (forRoutes_called decode disk req rs found) as [n [E _]].
  rewrite E in H.
  assert (Hf : In r (filter (matches req) rs)).
  { rewrite <- (firstn_skipn n (filter (matches req) rs)).
    apply in_or_app. left. exact H. }
  apply filter_In in Hf. exact Hf.
Qed.

(** X4. Every route of a shell built through the API has one of the six
    method names the registration methods push; so a request with any other
    method (HEAD, PATCH, ...) is only ever answered by a route registered
    with [any]. *)
Theorem reachable_methods : forall decode this,
  reachable decode this ->
  (forall r, In r (routes this) -> In (method r) registrationMethods)
  /\ (forall disk req r,
        ~ In (Req.method req) registrationMethods ->
        In r (called (fst (requestListener decode this disk req))) ->
        method r = "ANY" /\ path r = Req.url req).
Proof.
  intros decode this H.
  assert (M : forall r, In r (routes this) -> In (method r) registrationMethods).
  { induction H as [|c this _ IH]; [intros r []|].
    apply (perform_preserves
             (fun s => forall r, In r (routes s) -> In (method r) registrationMethods));
      [| |exact IH].
    - intros op p l s Hs r Hin.
      destruct (register_cases op p l s) as [[_ E]|[_ E]]; rewrite E in Hin; simpl in Hin.
      + apply Hs, Hin.
      + apply in_app_or in Hin. destruct Hin as [Hin|[<-|[]]]; [apply Hs, Hin|].
        destruct op; simpl; auto 7.
    - intros f s Hs. exact Hs. }
  split; [exact M|].
  intros disk req r Hm Hc. rewrite requestListener_called in Hc.
  apply called_matches in Hc. destruct Hc as [Hin Hr].
  apply matches_spec in Hr. destruct Hr as [Hp [Hq|Hq]]; [|auto].
  exfalso. apply Hm. rewrite <- Hq. apply M, Hin.
Qed.

Lemma reachable_methods_witness :
  reachable decodeAscii exampleShell
  /\ (forall r, In r (routes exampleShell) -> In (method r) registrationMethods)
  /\ (forall disk req r,
        ~ In (Req.method req) registrationMethods ->
        In r (called (fst (requestListener decodeAscii exampleShell disk req))) ->
        method r = "ANY" /\ path r = Req.url req).
Proof.
  assert (R : reachable decodeAscii exampleShell).
  { unfold exampleShell. repeat apply reachable_call. apply reachable_new. }
  split; [exact R|]. exact (reachable_methods decodeAscii exampleShell R).
Defined.

(** ** The listener on any table. *)









(** ** The projections on any tree and any table. *)

Lemma Conflicting_bindings : forall p m rs rs',
  bindings rs = bindings rs' -> Conflicting p m rs -> Conflicting p m rs'.
Proof.
  intros p m rs rs' E [r [Hin [Hp Hm]]].
  assert (Hb : In (path r, method r) (bindings rs'))
    by (rewrite <- E; unfold bindings; apply in_map_iff; exists r; auto).
  unfold bindings in Hb. apply in_map_iff in Hb. destruct Hb as [r' [Er Hin']].
  injection Er as Ep Em. exists r'. rewrite Ep, Em. auto.
Qed.

(** Whether [get] accepts depends on the paths and methods in the table
    only, and so do the path and method of what it pushes. *)
Lemma get_bindings : forall p l l' s s',
  bindings (routes s) = bindings (routes s') ->
  fst (get p l s) = fst (get p l' s')
  /\ bindings (routes (snd (get p l s))) = bindings (routes (snd (get p l' s'))).
Proof.
  intros p l l' s s' E.
  destruct (register_cases ByGet p l s) as [[C R]|[N R]];
    destruct (register_cases ByGet p l' s') as [[C' R']|[N' R']];
    cbn [register methodOf] in *; rewrite R, R'; simpl.
  - auto.
  - exfalso. apply N'. exact (Conflicting_bindings p "GET" _ _ E C).
  - exfalso. apply N. exact (Conflicting_bindings p "GET" _ _ (eq_sym E) C').
  - split; [reflexivity|]. unfold bindings in *. rewrite !map_app, E. reflexivity.
Qed.

Lemma projectAll_bindings : forall c c' vs s s',
  bindings (routes s) = bindings (routes s') ->
  fst (projectAll c vs s) = fst (projectAll c' vs s')
  /\ bindings (routes (snd (projectAll c vs s)))
     = bindings (routes (snd (projectAll c' vs s'))).
Proof.
  intros c c'. induction vs as [|v vs IH]; intros s s' E; [simpl; auto|].
  simpl. rewrite !projectFile_get.
  destruct (get_bindings (routeOf v) (callback (routeFor c v))
              (callback (routeFor c' v)) s s' E) as [F B].
  destruct (get (routeOf v) (callback (routeFor c v)) s) as [[|e] t];
    destruct (get (routeOf v) (callback (routeFor c' v)) s') as [[|e'] t'];
    simpl in F, B; try discriminate.
  - apply IH, B.
  - simpl. split; [exact F | exact B].
Qed.

(** On a tree where no file system call fails, the three projections lay out
    the same routes: they complete alike and leave tables with the same paths
    and methods in the same order. *)
Lemma projections_same_layout : forall decode contents directory route this,
  fst (Ts.useStatic decode contents directory route this)
  = fst (Dist.useStatic decode contents directory route this)
  /\ fst (Dist.useStatic decode contents directory route this)
     = fst (Dist.useDynamic contents directory route this)
  /\ bindings (routes (snd (Ts.useStatic decode contents directory route this)))
     = bindings (routes (snd (Dist.useStatic decode contents directory route this)))
  /\ bindings (routes (snd (Dist.useStatic decode contents directory route this)))
     = bindings (routes (snd (Dist.useDynamic contents directory route this))).
Proof.
  intros decode contents directory route this.
  unfold Ts.useStatic, Dist.useStatic, Dist.useDynamic. rewrite !project_visits.
  destruct (projectAll_bindings
              (fun extension _ bytes' => StaticTs extension (decode bytes'))
              (fun extension _ bytes' => Static extension (decode bytes'))
              (visits contents directory route) this this eq_refl) as [F1 B1].
  destruct (projectAll_bindings
              (fun extension _ bytes' => Static extension (decode bytes'))
              (fun extension pathname _ => Dynamic extension pathname)
              (visits contents directory route) this this eq_refl) as [F2 B2].
  auto.
Qed.

(** A run of the file branch over the visits: all accepted, or stopped at
    the first visit whose path is taken. *)
Lemma projectAll_cases : forall closure vs this,
  projectAll closure vs this
  = (Normal, mkShell (routes this ++ map (routeFor closure) vs) (middleware this))
  \/ exists n v,
       nth_error vs n = Some v
       /\ projectAll closure vs this
          = (Throw (RouteAlreadyBoundError (routeOf v)),
             mkShell (routes this ++ map (routeFor closure) (firstn n vs))
                     (middleware this))
       /\ Conflicting (routeOf v) "GET"
            (routes this ++ map (routeFor closure) (firstn n vs)).
Proof.
  intro closure. induction vs as [|v vs IH]; intro this.
  - left. simpl. rewrite app_nil_r. destruct this; reflexivity.
  - simpl. rewrite projectFile_get.
    destruct (register_cases ByGet (routeOf v) (callback (routeFor closure v)) this)
      as [[C E]|[_ E]]; cbn [register methodOf] in E; rewrite E.
    + right. exists 0, v. simpl. rewrite app_nil_r.
      split; [reflexivity|]. split; [destruct this; reflexivity | exact C].
    + destruct (IH (mkShell (routes this ++ [mkRoute (routeOf v) "GET"
                                               (callback (routeFor closure v))])
                       (middleware this))) as [N|[n [w [Hn [T C]]]]].
      * left. rewrite N. simpl. rewrite <- app_assoc. reflexivity.
      * right. exists (S n), w. simpl in *. rewrite <- app_assoc in T, C.
        split; [exact Hn|]. split; [exact T | exact C].
Qed.

(** On a tree where no file system call fails, a projection that throws has
    stopped at the first regular file, in walk order, whose route path was
    already bound: the error names that path, the routes of the files before
    it have been pushed, and nothing is pushed for the files after it. *)
Lemma projection_abort : forall closure contents directory route this e this',
  project closure contents directory route this = (Throw e, this') ->
  exists n v,
    nth_error (visits contents directory route) n = Some v
    /\ e = RouteAlreadyBoundError (routeOf v)
    /\ this' = mkShell (routes this
                        ++ map (routeFor closure)
                               (firstn n (visits contents directory route)))
                       (middleware this)
    /\ Conflicting (routeOf v) "GET" (routes this').
Proof.
  intros closure contents directory route this e this' H.
  rewrite project_visits in H.
  destruct (projectAll_cases closure (visits contents directory route) this)
    as [N|[n [v [Hn [T C]]]]].
  - rewrite N in H. discriminate.
  - rewrite T in H. injection H as <- <-. exists n, v.
    split; [exact Hn|]. split; [reflexivity|]. split; [reflexivity | exact C].
Qed.





(** ** Backslashes, and the walk as far as it gets. *)









(** ** The closures the projections register. *)

(** The step from the entries of a directory to the directory. *)
Lemma visits_exact_entries : forall contents,
  Forall (fun ec =>
            forall e ds ps,
              Forall (fun s => segment s = true) ds ->
              Forall (fun s => segment s = true) ps -> segment e = true ->
              everyEntry (fun entry' _ => segment entry') (snd ec) = true ->
              visitsEntry e (snd ec) (absolute ds) (absolute ps)
              = map (fun f => mkVisit (last (fst f) "") (absolute (ds ++ fst f))
                                      (absolute (ps ++ fst f)) (snd f))
                    (regularFilesEntry e (snd ec))) contents ->
  forall ds ps,
    Forall (fun s => segment s = true) ds ->
    Forall (fun s => segment s = true) ps -> segmentNames contents = true ->
    visits contents (absolute ds) (absolute ps)
    = map (fun f => mkVisit (last (fst f) "") (absolute (ds ++ fst f))
                            (absolute (ps ++ fst f)) (snd f))
          (regularFiles contents).
Proof.
  intros contents IH ds ps Hds Hps. unfold segmentNames.
  induction IH as [|[e c] contents Hc _ IHc]; intro H; [reflexivity|].
  simpl in *. split_entry H H1 H2 H3.
  rewrite map_app, (Hc e ds ps Hds Hps H1 H2), (IHc H3). reflexivity.
Qed.

Lemma visitsEntry_exact : forall dirEntry e ds ps,
  Forall (fun s => segment s = true) ds ->
  Forall (fun s => segment s = true) ps -> segment e = true ->
  everyEntry (fun entry' _ => segment entry') dirEntry = true ->
  visitsEntry e dirEntry (absolute ds) (absolute ps)
  = map (fun f => mkVisit (last (fst f) "") (absolute (ds ++ fst f))
                          (absolute (ps ++ fst f)) (snd f))
        (regularFilesEntry e dirEntry).
Proof.
  induction dirEntry as [b|contents IH|] using Node_tree_ind;
    intros e ds ps Hds Hps He H.
  - simpl. rewrite !join_absolute_segment by assumption. reflexivity.
  - rewrite visitsEntry_Directory, regularFilesEntry_Directory.
    rewrite everyEntry_Directory in H.
    rewrite !join_absolute_segment by assumption.
    rewrite (visits_exact_entries contents IH (ds ++ [e]) (ps ++ [e]));
      [|apply Forall_segment_snoc; assumption
       |apply Forall_segment_snoc; assumption|exact H].
    rewrite map_map. apply map_ext_in. intros f Hin. simpl.
    destruct (regularFiles_segments contents H f Hin) as [Hne _].
    rewrite <- !app_assoc. simpl.
    destruct (fst f) as [|x rel]; [contradiction | reflexivity].
  - reflexivity.
Qed.

(** Under a rooted directory and a rooted route prefix, the walk meets each
    regular file under its own name, with its path on disk and its route
    path made of the same relative path. *)
Lemma visits_exact : forall contents ds ps,
  Forall (fun s => segment s = true) ds ->
  Forall (fun s => segment s = true) ps -> segmentNames contents = true ->
  visits contents (absolute ds) (absolute ps)
  = map (fun f => mkVisit (last (fst f) "") (absolute (ds ++ fst f))
                          (absolute (ps ++ fst f)) (snd f))
        (regularFiles contents).
Proof.
  intros contents. apply visits_exact_entries.
  apply Forall_forall. intros ec _ e ds ps. apply visitsEntry_exact.
Qed.

Lemma project_exact : forall closure contents ds ps this,
  Forall (fun s => segment s = true) ds ->
  Forall (fun s => portable s = true) ps ->
  wellFormed contents = true ->
  (forall f, In f (regularFiles contents) ->
     ~ Conflicting (specRoute ps (fst f)) "GET" (routes this)) ->
  project closure contents (absolute ds) (absolute ps) this
  = (Normal,
     mkShell (routes this
              ++ map (fun f => mkRoute (specRoute ps (fst f)) "GET"
                                 (closure (extensionOf (last (fst f) ""))
                                          (absolute (ds ++ fst f)) (snd f)))
                     (regularFiles contents))
             (middleware this)).
Proof.
  intros closure contents ds ps this Hds Hps H Hfree.
  destruct (project_layout closure contents (absolute ds) ps this Hps H Hfree) as [E _].
  rewrite E.
  pose proof (wellFormed_segmentNames contents H) as Hs.
  rewrite (visits_exact contents ds ps Hds (portable_segments ps Hps) Hs), map_map.
  do 3 f_equal. apply map_ext_in. intros f Hin.
  destruct (regularFiles_segments contents Hs f Hin) as [Hne Hseg].
  unfold routeFor. simpl. f_equal.
  apply routeOf_specRoute; auto. apply portable_segments, Hps.
Qed.

(** X10. The table after a projection, in full.  For a well-formed tree,
    a rooted directory, a rooted portable route prefix and a table holding
    none of the paths: each regular file gets one route whose closure carries
    the extension taken from the file's own name; the closure of [useStatic]
    carries the text decoded from the file's bytes, the closure of
    [useDynamic] the path name of the file itself, directory followed by
    relative path, also for an [index.html] whose route path is its
    directory's. *)
Theorem projections_exact_table : forall decode contents ds ps this,
  Forall (fun s => segment s = true) ds ->
  Forall (fun s => portable s = true) ps ->
  wellFormed contents = true ->
  (forall f, In f (regularFiles contents) ->
     ~ Conflicting (specRoute ps (fst f)) "GET" (routes this)) ->
  Ts.useStatic decode contents (absolute ds) (absolute ps) this
  = (Normal,
     mkShell (routes this
              ++ map (fun f => mkRoute (specRoute ps (fst f)) "GET"
                                 (StaticTs (extensionOf (last (fst f) ""))
                                           (decode (snd f))))
                     (regularFiles contents))
             (middleware this))
  /\ Dist.useStatic decode contents (absolute ds) (absolute ps) this
     = (Normal,
        mkShell (routes this
                 ++ map (fun f => mkRoute (specRoute ps (fst f)) "GET"
                                    (Static (extensionOf (last (fst f) ""))
                                            (decode (snd f))))
                        (regularFiles contents))
                (middleware this))
  /\ Dist.useDynamic contents (absolute ds) (absolute ps) this
     = (Normal,
        mkShell (routes this
                 ++ map (fun f => mkRoute (specRoute ps (fst f)) "GET"
                                    (Dynamic (extensionOf (last (fst f) ""))
                                             (absolute (ds ++ fst f))))
                        (regularFiles contents))
                (middleware this)).
Proof.
  intros decode contents ds ps this Hds Hps H Hfree.
  unfold Ts.useStatic, Dist.useStatic, Dist.useDynamic.
  rewrite !project_exact by assumption. auto.
Qed.

Lemma projections_exact_table_witness :
  Dist.useDynamic exampleRoot "/root" "/assets" newShell
  = (Normal,
     mkShell [mkRoute "/assets/a.txt" "GET" (Dynamic "txt" "/root/a.txt");
              mkRoute "/assets/sub/b.png" "GET" (Dynamic "png" "/root/sub/b.png");
              mkRoute "/assets/sub" "GET" (Dynamic "html" "/root/sub/index.html")]
             NoOp).
Proof.
  assert (Hds : Forall (fun s => segment s = true) ["root"]) by (repeat constructor).
  assert (Hps : Forall (fun s => portable s = true) ["assets"]) by (repeat constructor).
  assert (Hfree : forall f, In f (regularFiles exampleRoot) ->
                    ~ Conflicting (specRoute ["assets"] (fst f)) "GET" (routes newShell))
    by (intros f _ [r [[] _]]).
  exact (proj2 (proj2 (projections_exact_table decodeAscii exampleRoot ["root"] ["assets"]
                         newShell Hds Hps eq_refl Hfree))).
Defined.



(** ** File names. *)

Lemma split_append : forall c s t,
  Js.split c (s +++ String c t) = Js.split c s ++ Js.split c t.
Proof.
  induction s as [|a s IH]; intro t; simpl.
  - rewrite Ascii.eqb_refl. reflexivity.
  - rewrite IH. destruct (Ascii.eqb a c); [reflexivity|].
    pose proof (split_not_nil c s) as N.
    destruct (Js.split c s) as [|w ws]; [contradiction | reflexivity].
Qed.

Lemma split_pieces : forall c s,
  Forall (fun x => Js.includes c x = false) (Js.split c s).
Proof.
  induction s as [|a s IH]; simpl; [repeat constructor|].
  destruct (Ascii.eqb a c) eqn:E; [constructor; [reflexivity | exact IH]|].
  destruct (Js.split c s) as [|w ws]; [repeat constructor; simpl; rewrite E; reflexivity|].
  inversion IH as [|? ? Hw Hws]; subst. constructor; [|exact Hws].
  simpl. rewrite E, Hw. reflexivity.
Qed.

Lemma split_two : forall c s,
  Js.includes c s = true -> removelast (Js.split c s) <> [].
Proof.
  induction s as [|a s IH]; simpl; [discriminate|].
  intro H. destruct (Ascii.eqb a c) eqn:E.
  - pose proof (split_not_nil c s) as N.
    destruct (Js.split c s); [contradiction | discriminate].
  - simpl in H. specialize (IH H).
    destruct (Js.split c s) as [|w [|w' ws]]; [contradiction | contradiction | discriminate].
Qed.

(** X12. The file branch takes as extension what follows the last dot of
    the name, and as base name what precedes it: the extension never holds a
    dot, a name with a dot is base name, dot, extension put together again,
    and a name made of any base, a dot and a dot-free extension is taken
    apart into these two (so [a.tar.gz] has extension [gz], [.gitignore] has
    extension [gitignore] and an empty base, [notes.] has an empty
    extension). *)
Theorem extension_after_last_dot :
  (forall e, Js.includes "."%char (extensionOf e) = false)
  /\ (forall e, Js.includes "."%char e = true ->
        e = nameOf e +++ "." +++ extensionOf e)
  /\ (forall s x, Js.includes "."%char x = false ->
        extensionOf (s +++ "." +++ x) = x /\ nameOf (s +++ "." +++ x) = s)
  /\ extensionOf "a.tar.gz" = "gz" /\ nameOf ".gitignore" = ""
  /\ extensionOf "notes." = "".
Proof.
  split; [|split; [|split; [|repeat split]]].
  - intro e. unfold extensionOf.
    pose proof (split_pieces "."%char e) as P.
    rewrite (split_last "."%char e) in P. apply Forall_app in P.
    destruct P as [_ P]. inversion P; subst. assumption.
  - intros e H. apply name_dot_extension, split_two, H.
  - intros s x H. unfold extensionOf, nameOf.
    change (s +++ "." +++ x) with (s +++ String "."%char x).
    rewrite split_append, (split_whole "."%char x H).
    rewrite last_last, removelast_last. split; [reflexivity | apply join_split].
Qed.

(** ** The MIME table is lower case. *)

(** X13. An extension with a capital letter in it is never in the table:
    [MIMEFromExt] answers "text/plain" and logs the diagnostic for it, so
    [PHOTO.PNG] or [Index.HTML] are served as plain text. *)
Theorem uppercase_extension_unmapped : forall extension,
  hasUpper extension = true ->
  MIMEFromExt extension = ("text/plain", [unknownExtensionLine extension]).
Proof.
  intros extension H.
  pose proof (MIMEFromExt_lookup extension) as L.
  destruct (tableLookup mimeTable extension) as [mime|] eqn:E; [|tauto].
  exfalso. apply tableLookup_In in E. simpl in E.
  repeat (destruct E as [E|E]; [injection E as <- _; discriminate|]).
  exact E.
Qed.

Lemma uppercase_extension_unmapped_witness :
  MIMEFromExt (extensionOf "PHOTO.PNG") = ("text/plain", [unknownExtensionLine "PNG"]).
Proof.
  exact (uppercase_extension_unmapped (extensionOf "PHOTO.PNG") eq_refl).
Defined.

(** ** Registrations against each other. *)

Lemma Conflicting_push : forall q m rs p m' l,
  Conflicting q m (rs ++ [mkRoute p m' l])
  <-> Conflicting q m rs \/ (p = q /\ (m' = m \/ m' = "ANY" \/ m = "ANY")).
Proof.
  intros q m rs p m' l. unfold Conflicting. split.
  - intros [r [Hin H]]. apply in_app_or in Hin. destruct Hin as [Hin|[<-|[]]].
    + left. exists r. auto.
    + right. exact H.
  - intros [[r [Hin H]]|H].
    + exists r. split; [apply in_or_app; left; exact Hin | exact H].
    + exists (mkRoute p m' l). split; [apply in_or_app; right; left; reflexivity | exact H].
Qed.

Lemma register_Normal_iff : forall op p l this,
  fst (register op p l this) = Normal <-> ~ Conflicting p (methodOf op) (routes this).
Proof.
  intros op p l this.
  destruct (register_cases op p l this) as [[C E]|[N E]]; rewrite E; simpl.
  - split; [discriminate | tauto].
  - tauto.
Qed.

(** X14. Registrations at different paths do not interfere: whether a
    registration at one path is accepted is the same before and after any
    registration, accepted or not, at another path. *)
Theorem registration_paths_independent : forall op p l op' q l' this,
  p <> q ->
  fst (register op' q l' (snd (register op p l this)))
  = fst (register op' q l' this).
Proof.
  intros op p l op' q l' this Hpq.
  assert (C : Conflicting q (methodOf op') (routes (snd (register op p l this)))
              <-> Conflicting q (methodOf op') (routes this)).
  { destruct (register_cases op p l this) as [[_ E]|[_ E]]; rewrite E; simpl; [tauto|].
    rewrite Conflicting_push. tauto. }
  destruct (register_cases op' q l' (snd (register op p l this))) as [[C1 E1]|[N1 E1]];
    destruct (register_cases op' q l' this) as [[C2 E2]|[N2 E2]];
    rewrite E1, E2; simpl; tauto.
Qed.

Lemma registration_paths_independent_witness :
  fst (register ByAny "/b" (Listener 1) (snd (register ByGet "/a" (Listener 0) newShell)))
  = fst (register ByAny "/b" (Listener 1) newShell).
Proof.
  apply (registration_paths_independent ByGet "/a" (Listener 0) ByAny "/b" (Listener 1)
           newShell).
  discriminate.
Defined.

(** X15. Two registrations on a path that holds no route: the first is
    accepted, and the second is accepted exactly when the two methods differ
    and neither is [ANY]; so GET and POST share a path, while [any] after
    anything, anything after [any], and the same method twice are refused. *)
Theorem same_path_registrations : forall op1 op2 p l1 l2 this,
  (forall r, In r (routes this) -> path r <> p) ->
  fst (register op1 p l1 this) = Normal
  /\ (fst (register op2 p l2 (snd (register op1 p l1 this))) = Normal
      <-> methodOf op1 <> methodOf op2
          /\ methodOf op1 <> "ANY" /\ methodOf op2 <> "ANY").
Proof.
  intros op1 op2 p l1 l2 this Hfree.
  assert (N : forall m, ~ Conflicting p m (routes this)).
  { intros m [r [Hin [Hp _]]]. exact (Hfree r Hin Hp). }
  split; [apply register_Normal_iff, N|].
  rewrite register_Normal_iff.
  destruct (register_cases op1 p l1 this) as [[C _]|[_ E]]; [exfalso; exact (N _ C)|].
  rewrite E. simpl. rewrite Conflicting_push.
  pose proof (N (methodOf op2)). tauto.
Qed.

Lemma same_path_registrations_witness :
  fst (register ByGet "/form" (Listener 0) newShell) = Normal
  /\ (fst (register ByPost "/form" (Listener 1)
             (snd (register ByGet "/form" (Listener 0) newShell))) = Normal
      <-> "GET" <> "POST" /\ "GET" <> "ANY" /\ "POST" <> "ANY").
Proof.
  apply (same_path_registrations ByGet ByPost "/form" (Listener 0) (Listener 1) newShell).
  intros r [].
Defined.

(** ** The projections on a disk whose calls can fail. *)

(** Induction on a tree and on its listings together. *)
Lemma FsNode_walk_ind : forall (P : FsNode -> Prop) (Q : list (string * FsNode) -> Prop),
  (forall b, P (FsFile b)) -> P FsUnreadable ->
  (forall contents, Q contents -> P (FsDirectory contents)) ->
  P FsUnlistable -> P FsSpecial -> P FsGone ->
  Q [] -> (forall e n contents, P n -> Q contents -> Q ((e, n) :: contents)) ->
  (forall n, P n) /\ (forall contents, Q contents).
Proof.
  intros P Q HF HU HD HL HS HG Hnil Hcons.
  assert (HP : forall n, P n).
  { fix IH 1.
    intros [b| |contents| | |];
      [apply HF | exact HU | | exact HL | exact HS | exact HG].
    apply HD. induction contents as [|[e c] contents IHc]; [exact Hnil|].
    apply Hcons; [apply IH | exact IHc]. }
  split; [exact HP|].
  induction contents as [|[e c] contents IHc]; [exact Hnil|].
  apply Hcons; [apply HP | exact IHc].
Qed.

Lemma walkEntry_Directory : forall decode how e contents directory route this,
  walkEntry decode how e (FsDirectory contents) directory route this
  = walk decode how contents (NodePath.join directory e) (NodePath.join route e) this.
Proof.
  intros decode how e contents directory route. simpl.
  induction contents as [|[e' c] contents IH]; intro this; [reflexivity|].
  simpl. destruct (walkEntry decode how e' c _ _ this) as [[|err] this'];
    [apply IH | reflexivity].
Qed.

Lemma everyFs_Directory : forall ok contents,
  everyFs ok (FsDirectory contents) = everyFsAll ok contents.
Proof.
  intros ok contents. simpl.
  induction contents as [|[e c] contents IH]; [reflexivity|].
  simpl. rewrite IH. reflexivity.
Qed.

Lemma toNode_Directory : forall contents,
  toNode (FsDirectory contents) = Directory (toNodes contents).
Proof. reflexivity. Qed.

(** What the file branch can do: throw for a bound path and leave the shell,
    or push one [GET] route. *)
Lemma projectFile_facts : forall closure e pd pr b this,
  (forall p, fst (projectFile closure e pd pr b this) = Throw (RouteAlreadyBoundError p) ->
     Conflicting p "GET" (routes (snd (projectFile closure e pd pr b this))))
  /\ (forall p, fst (projectFile closure e pd pr b this) <> Throw (FilesystemError p))
  /\ exists added,
       snd (projectFile closure e pd pr b this)
       = mkShell (routes this ++ added) (middleware this)
       /\ forall r, In r added -> method r = "GET".
Proof.
  intros closure e pd pr b this.
  change (projectFile closure e pd pr b this)
    with (get (routeOf (mkVisit e pd pr b))
              (callback (routeFor closure (mkVisit e pd pr b))) this).
  destruct (register_cases ByGet (routeOf (mkVisit e pd pr b))
              (callback (routeFor closure (mkVisit e pd pr b))) this)
    as [[C E]|[_ E]]; cbn [register methodOf] in E; rewrite E; simpl.
  - split; [intros p [= <-]; exact C|]. split; [discriminate|].
    exists []. split; [rewrite app_nil_r; destruct this; reflexivity | intros r []].
  - split; [discriminate|]. split; [discriminate|].
    eexists. split; [reflexivity|]. intros r [<-|[]]. reflexivity.
Qed.

(** What a walk can do, whatever the disk: a route conflict, a failed file
    system call, or a normal return; in each case the table has only gained
    [GET] routes. *)
Lemma walk_facts : forall decode how,
  (forall n e directory route this,
     (forall p, fst (walkEntry decode how e n directory route this)
                = Throw (RouteAlreadyBoundError p) ->
        Conflicting p "GET" (routes (snd (walkEntry decode how e n directory route this))))
     /\ (forall p, fst (walkEntry decode how e n directory route this)
                   = Throw (FilesystemError p) ->
           everyFs (sound how) n = false)
     /\ exists added,
          snd (walkEntry decode how e n directory route this)
          = mkShell (routes this ++ added) (middleware this)
          /\ forall r, In r added -> method r = "GET")
  /\ (forall contents directory route this,
        (forall p, fst (walk decode how contents directory route this)
                   = Throw (RouteAlreadyBoundError p) ->
           Conflicting p "GET" (routes (snd (walk decode how contents directory route this))))
        /\ (forall p, fst (walk decode how contents directory route this)
                      = Throw (FilesystemError p) ->
              everyFsAll (sound how) contents = false)
        /\ exists added,
             snd (walk decode how contents directory route this)
             = mkShell (routes this ++ added) (middleware this)
             /\ forall r, In r added -> method r = "GET").
Proof.
  intros decode how.
  assert (Same : forall this : ServerShell,
             exists added : list Route,
               this = mkShell (routes this ++ added) (middleware this)
               /\ forall r, In r added -> method r = "GET").
  { intro this. exists []. split; [rewrite app_nil_r; destruct this; reflexivity|].
    intros r []. }
  assert (Fail : forall this p,
             (forall q, Throw (FilesystemError p) = Throw (RouteAlreadyBoundError q) ->
                Conflicting q "GET" (routes this))) by (intros; discriminate).
  apply FsNode_walk_ind.
  - intros b e directory route this. simpl.
    destruct (projectFile_facts (closureOf decode how) e
                (NodePath.join directory e) (NodePath.join route e) b this)
      as [C [N A]].
    split; [exact C|]. split; [|exact A]. intros p Hp. exfalso. exact (N p Hp).
  - intros e directory route this. simpl. unfold sound.
    destruct (readsFiles how); simpl.
    + split; [apply Fail|]. split; [reflexivity | apply Same].
    + destruct (projectFile_facts (closureOf decode how) e
                  (NodePath.join directory e) (NodePath.join route e) "" this)
        as [C [N A]].
      split; [exact C|]. split; [|exact A]. intros p Hp. exfalso. exact (N p Hp).
  - intros contents Q e directory route this.
    rewrite walkEntry_Directory, everyFs_Directory. apply Q.
  - intros e directory route this. simpl. unfold sound.
    split; [apply Fail|]. split; [destruct (readsFiles how); reflexivity | apply Same].
  - intros e directory route this. simpl.
    split; [discriminate|]. split; [discriminate | apply Same].
  - intros e directory route this. simpl. unfold sound.
    split; [apply Fail|]. split; [destruct (readsFiles how); reflexivity | apply Same].
  - intros directory route this. simpl.
    split; [discriminate|]. split; [discriminate | apply Same].
  - intros e n contents P Q directory route this. simpl.
    destruct (P e directory route this) as [C1 [F1 [added1 [E1 G1]]]].
    destruct (walkEntry decode how e n directory route this) as [[|err] this1];
      simpl in *.
    + destruct (Q directory route this1) as [C2 [F2 [added2 [E2 G2]]]].
      split; [exact C2|]. split.
      * intros p Hp. rewrite (F2 p Hp). apply andb_false_r.
      * exists (added1 ++ added2). rewrite E2, E1. simpl. rewrite <- app_assoc.
        split; [reflexivity|]. intros r Hin. apply in_app_or in Hin.
        destruct Hin; auto.
    + split; [exact C1|]. split.
      * intros p Hp. rewrite (F1 p Hp). reflexivity.
      * exists added1. split; [exact E1 | exact G1].
Qed.

(** On a tree where no call fails, the walk is the walk of the earlier
    sections on the same tree. *)
Lemma walk_project : forall decode how,
  (forall n e directory route this,
     everyFs isReadable n = true ->
     walkEntry decode how e n directory route this
     = projectEntry (closureOf decode how) e (toNode n) directory route this)
  /\ (forall contents directory route this,
        everyFsAll isReadable contents = true ->
        walk decode how contents directory route this
        = project (closureOf decode how) (toNodes contents) directory route this).
Proof.
  intros decode how. apply FsNode_walk_ind; try (intros; discriminate).
  - reflexivity.
  - intros contents Q e directory route this H.
    rewrite walkEntry_Directory, toNode_Directory, projectEntry_Directory.
    rewrite everyFs_Directory in H. apply Q. exact H.
  - reflexivity.
  - reflexivity.
  - intros e n contents P Q directory route this H. simpl in *.
    apply andb_true_iff in H. destruct H as [H1 H2].
    rewrite (P e directory route this H1).
    destruct (projectEntry (closureOf decode how) e (toNode n) directory route this)
      as [[|err] this1]; [apply Q, H2 | reflexivity].
Qed.

Lemma projectFile_bindings : forall c c' e pd pr b b' s s',
  bindings (routes s) = bindings (routes s') ->
  fst (projectFile c e pd pr b s) = fst (projectFile c' e pd pr b' s')
  /\ bindings (routes (snd (projectFile c e pd pr b s)))
     = bindings (routes (snd (projectFile c' e pd pr b' s'))).
Proof.
  intros c c' e pd pr b b' s s' E. unfold projectFile. apply get_bindings, E.
Qed.

(** Two projections walk alike when they read alike, or when every file can
    be read. *)
Lemma walk_bindings : forall decode h1 h2,
  (forall n e directory route s s',
     readsFiles h1 = readsFiles h2 \/ everyFs hasBytes n = true ->
     bindings (routes s) = bindings (routes s') ->
     fst (walkEntry decode h1 e n directory route s)
     = fst (walkEntry decode h2 e n directory route s')
     /\ bindings (routes (snd (walkEntry decode h1 e n directory route s)))
        = bindings (routes (snd (walkEntry decode h2 e n directory route s'))))
  /\ (forall contents directory route s s',
        readsFiles h1 = readsFiles h2 \/ everyFsAll hasBytes contents = true ->
        bindings (routes s) = bindings (routes s') ->
        fst (walk decode h1 contents directory route s)
        = fst (walk decode h2 contents directory route s')
        /\ bindings (routes (snd (walk decode h1 contents directory route s)))
           = bindings (routes (snd (walk decode h2 contents directory route s')))).
Proof.
  intros decode h1 h2. apply FsNode_walk_ind.
  - intros b e directory route s s' _ E. simpl. apply projectFile_bindings, E.
  - intros e directory route s s' [R|R] E; [|discriminate R]. simpl. rewrite R.
    destruct (readsFiles h2); [simpl; auto | apply projectFile_bindings, E].
  - intros contents Q e directory route s s' R E.
    rewrite !walkEntry_Directory. rewrite everyFs_Directory in R.
    apply Q; assumption.
  - intros e directory route s s' _ E. simpl. auto.
  - intros e directory route s s' _ E. simpl. auto.
  - intros e directory route s s' _ E. simpl. auto.
  - intros directory route s s' _ E. simpl. auto.
  - intros e n contents P Q directory route s s' R E. simpl.
    assert (R1 : readsFiles h1 = readsFiles h2 \/ everyFs hasBytes n = true).
    { destruct R as [R|R]; [left; exact R | right].
      simpl in R. apply andb_true_iff in R. tauto. }
    assert (R2 : readsFiles h1 = readsFiles h2 \/ everyFsAll hasBytes contents = true).
    { destruct R as [R|R]; [left; exact R | right].
      simpl in R. apply andb_true_iff in R. tauto. }
    destruct (P e directory route s s' R1 E) as [F B].
    destruct (walkEntry decode h1 e n directory route s) as [[|e1] t];
      destruct (walkEntry decode h2 e n directory route s') as [[|e2] t'];
      simpl in F, B; try discriminate.
    + apply Q; assumption.
    + simpl. auto.
Qed.

(** X6. How the three projections compare on a disk whose calls can fail.
    The two versions of [useStatic] complete alike and leave the same paths
    and methods on every disk.  [useStatic] and [useDynamic] do so on every
    disk where each regular file can be read; they part on a file that
    cannot: [useStatic] throws there, having read it in the walk, while
    [useDynamic] registers its route and reads it when a request comes, and
    never throws a file system error of its own where every entry can be
    examined and every directory listed. *)
Theorem projections_agree_on_disk : forall decode root directory route this,
  (fst (walkRoot decode ByUseStaticTs root directory route this)
   = fst (walkRoot decode ByUseStatic root directory route this)
   /\ bindings (routes (snd (walkRoot decode ByUseStaticTs root directory route this)))
      = bindings (routes (snd (walkRoot decode ByUseStatic root directory route this))))
  /\ (everyFs hasBytes root = true ->
      fst (walkRoot decode ByUseStatic root directory route this)
      = fst (walkRoot decode ByUseDynamic root directory route this)
      /\ bindings (routes (snd (walkRoot decode ByUseStatic root directory route this)))
         = bindings (routes (snd (walkRoot decode ByUseDynamic root directory route this))))
  /\ (forall e,
        walkRoot decode ByUseStatic (FsDirectory [(e, FsUnreadable)]) directory route this
        = (Throw (FilesystemError (NodePath.join directory e)), this)
        /\ walkRoot decode ByUseDynamic (FsDirectory [(e, FsUnreadable)]) directory route this
           = get (routeOf (mkVisit e (NodePath.join directory e)
                                   (NodePath.join route e) EmptyString))
                 (Dynamic (extensionOf e) (NodePath.join directory e)) this)
  /\ (forall contents p,
        everyFsAll isListable contents = true ->
        fst (walkRoot decode ByUseDynamic (FsDirectory contents) directory route this)
        <> Throw (FilesystemError p)).
Proof.
  intros decode root directory route this.
  split; [|split; [|split]].
  - destruct root as [b| |contents| | |]; simpl; auto.
    apply (proj2 (walk_bindings decode ByUseStaticTs ByUseStatic));
      [left; reflexivity | reflexivity].
  - intro H. destruct root as [b| |contents| | |]; simpl; auto.
    rewrite everyFs_Directory in H.
    apply (proj2 (walk_bindings decode ByUseStatic ByUseDynamic));
      [right; exact H | reflexivity].
  - intro e. split; [reflexivity|].
    assert (E : forall t : Completion * ServerShell,
               (let (c, after) := t in
                match c with
                | Normal => (Normal, after)
                | Throw x => (Throw x, after)
                end) = t) by (intros [[|x] after]; reflexivity).
    simpl. rewrite E. reflexivity.
  - intros contents p H Hp. simpl in Hp.
    destruct (proj2 (walk_facts decode ByUseDynamic) contents directory route this)
      as [_ [F _]].
    pose proof (F p Hp) as Z. change (sound ByUseDynamic) with isListable in Z.
    rewrite Z in H. discriminate.
Qed.

(** X7. What a projection that throws has done, on a disk whose calls can
    fail.  It has stopped at a regular file whose route path was already
    bound for [GET] or [ANY], with [RouteAlreadyBoundError] for that path, or
    at a file system call that failed; either way the table is the table
    before followed by the [GET] routes pushed until then, and the middleware
    is untouched.  A file system error means that a call this projection
    makes fails somewhere in the tree, or that the directory itself cannot be
    listed; on a tree where no call fails the walk is the walk of the earlier
    sections. *)
Theorem projection_throws_on_disk : forall decode how root directory route this,
  (exists added,
      snd (walkRoot decode how root directory route this)
      = mkShell (routes this ++ added) (middleware this)
      /\ forall r, In r added -> method r = "GET")
  /\ (forall p,
        fst (walkRoot decode how root directory route this)
        = Throw (RouteAlreadyBoundError p) ->
        Conflicting p "GET" (routes (snd (walkRoot decode how root directory route this))))
  /\ (forall p contents,
        root = FsDirectory contents ->
        fst (walkRoot decode how root directory route this) = Throw (FilesystemError p) ->
        everyFsAll (sound how) contents = false)
  /\ (forall contents,
        root = FsDirectory contents -> everyFsAll isReadable contents = true ->
        walkRoot decode how root directory route this
        = project (closureOf decode how) (toNodes contents) directory route this)
  /\ ((forall contents, root <> FsDirectory contents) ->
      walkRoot decode how root directory route this
      = (Throw (FilesystemError directory), this)).
Proof.
  intros decode how root directory route this.
  assert (Same : exists added : list Route,
             this = mkShell (routes this ++ added) (middleware this)
             /\ forall r, In r added -> method r = "GET").
  { exists []. split; [rewrite app_nil_r; destruct this; reflexivity | intros r []]. }
  split; [|split; [|split; [|split]]].
  - destruct root as [b| |contents| | |]; simpl; try exact Same.
    apply (proj2 (walk_facts decode how) contents directory route this).
  - intros p Hp. destruct root as [b| |contents| | |]; simpl in *; try discriminate.
    apply (proj2 (walk_facts decode how) contents directory route this), Hp.
  - intros p contents -> Hp. simpl in Hp.
    apply (proj2 (walk_facts decode how) contents directory route this) in Hp. exact Hp.
  - intros contents -> H. simpl.
    apply (proj2 (walk_project decode how)), H.
  - intro H. destruct root as [b| |contents| | |]; try reflexivity.
    exfalso. apply (H contents). reflexivity.
Qed.

Lemma projections_agree_on_disk_witness :
  walkRoot decodeAscii ByUseStatic (FsDirectory [("a.txt", FsUnreadable)])
    "/root" "/assets" newShell
  = (Throw (FilesystemError "/root/a.txt"), newShell)
  /\ walkRoot decodeAscii ByUseDynamic (FsDirectory [("a.txt", FsUnreadable)])
       "/root" "/assets" newShell
     = (Normal, mkShell [mkRoute "/assets/a.txt" "GET" (Dynamic "txt" "/root/a.txt")] NoOp).
Proof.
  exact (proj1 (proj2 (proj2 (projections_agree_on_disk decodeAscii exampleDisk
                                "/root" "/assets" newShell))) "a.txt").
Defined.

Lemma projection_throws_on_disk_witness :
  walkRoot decodeAscii ByUseDynamic exampleDisk "/root" "/assets" newShell
  = Dist.useDynamic exampleRoot "/root" "/assets" newShell
  /\ walkRoot decodeAscii ByUseStatic brokenDisk "/root" "/assets" newShell
     = (Throw (FilesystemError "/root/a.txt"), newShell)
  /\ walkRoot decodeAscii ByUseDynamic brokenDisk "/root" "/assets" newShell
     = (Throw (FilesystemError "/root/sub"),
        mkShell [mkRoute "/assets/a.txt" "GET" (Dynamic "txt" "/root/a.txt")] NoOp).
Proof.
  split; [|split; reflexivity].
  exact (proj1 (proj2 (proj2 (proj2
           (projection_throws_on_disk decodeAscii ByUseDynamic exampleDisk
              "/root" "/assets" newShell))))
           [ ("a.txt", FsFile "hello");
             ("sub", FsDirectory [ ("b.png", FsFile "PNG");
                                   ("index.html", FsFile "<html></html>") ]) ]
           eq_refl eq_refl).
Defined.
